(** * Embedded-Scheduler: a cooperative tick-driven task scheduler

    Shallow embedding of [src/scheduler/Scheduler.hpp] and
    [src/scheduler/Scheduler.cpp], followed by the properties of the
    initialisation, tick and dispatch operations.

    Modelling conventions.
    - [uint32_t] values are integers in [Z]; every arithmetic operation the
      source performs on them is followed by an explicit reduction modulo
      [2^32] ([wrap32]).  [uint16_t] counts and indices are in [N] / [nat];
      the only arithmetic on them is the bounded [++i] of the loops.
    - A pointer to [Task] is [option addr]: [None] is [NULL], [Some a]
      names an array of descriptors owned by the caller.  The arrays live
      in a store ([gmap addr (list Task)]); the scheduler only keeps the
      address, so the store shows both the aliasing between the caller's
      table and the bound table and the writes to [last_called_].
    - A pointer to a task body is [option code_ptr].  Task bodies are
      opaque: a call is recorded as an event and has no effect on the
      scheduler or the store.
    - Reading or writing through a dangling address or past the end of an
      array is undefined in C++; the operations that dereference return
      [None] in that case.
    - The scheduler is driven from one thread of control: the counter does
      not change while [run] is in its loop, so the per-iteration snapshot
      [sysctr] is the counter value at entry. *)

From stdpp Require Import base option list gmap.
From Stdlib Require Import ZArith Lia Sorted.

Local Open Scope Z_scope.

(** ** Machine integers *)

Definition UINT32_MAX : Z := 0xFFFFFFFF.

Definition wrap32 (z : Z) : Z := z mod 2 ^ 32.

Definition is_uint32 (z : Z) : Prop := 0 <= z < 2 ^ 32.

(** ** Data model *)

Definition addr := positive.
Definition code_ptr := positive.

(** [class Scheduler::Task]. *)
Record Task := mkTask {
  func : option code_ptr;
  interval : Z;
  last_called_ : Z
}.

(** The constructor [Task(func, interval)]; [last_called_] has the default
    member initialiser [0]. *)
Definition Task_new (f : option code_ptr) (iv : Z) : Task :=
  mkTask f iv 0.

(** The data members of [class Scheduler]. *)
Record Scheduler := mkScheduler {
  sys_tick_ctr_ : Z;
  systick_interval_ : Z;
  num_tasks_ : N;
  task_table_ : option addr
}.

(** A default-constructed scheduler (the default member initialisers). *)
Definition Scheduler_new : Scheduler :=
  mkScheduler 0 1 0%N None.

(** The program state: the caller-owned arrays and one scheduler object. *)
Record World := mkWorld {
  mem : gmap addr (list Task);
  sched : Scheduler
}.

Definition set_sched (s : Scheduler) (w : World) : World :=
  mkWorld (mem w) s.

Definition set_mem (m : gmap addr (list Task)) (w : World) : World :=
  mkWorld m (sched w).

(** One call of a task body: position in the table, the function called
    and the counter snapshot [sysctr] of that iteration. *)
Record Event := mkEvent {
  ev_idx : nat;
  ev_fn : code_ptr;
  ev_tick : Z
}.

(** How the loop of [run] was left: the condition [i < num_tasks_] became
    false, or the [break] at position [i] was taken. *)
Inductive loop_exit :=
| Finished
| Broke (i : nat).

(** ** Store accesses *)

(** [p[i]] as an rvalue. *)
Definition read_task (m : gmap addr (list Task)) (a : addr) (i : nat)
  : option Task :=
  t ← m !! a; t !! i.

Definition with_last_called (v : Z) (tk : Task) : Task :=
  mkTask (func tk) (interval tk) v.

(** [p[i].last_called_ = v]. *)
Definition write_last_called (m : gmap addr (list Task)) (a : addr) (i : nat)
    (v : Z) : option (gmap addr (list Task)) :=
  t ← m !! a;
  tk ← t !! i;
  Some (<[a := <[i := with_last_called v tk]> t]> m).

(** ** Scheduler::init *)

(** The validation loop, [n] iterations left, at index [i]:
    [Some false] stands for the early [return retval]. *)
Fixpoint init_check (m : gmap addr (list Task)) (a : addr) (n i : nat)
  : option bool :=
  match n with
  | O => Some true
  | S n' =>
      tk ← read_task m a i;
      match func tk with
      | None => Some false
      | Some _ => init_check m a n' (S i)
      end
  end.

(** The loop that primes [last_called_], [n] iterations left, at index [i]. *)
Fixpoint init_prime (m : gmap addr (list Task)) (a : addr) (n i : nat)
  : option (gmap addr (list Task)) :=
  match n with
  | O => Some m
  | S n' =>
      tk ← read_task m a i;
      m' ← write_last_called m a i
             (wrap32 (wrap32 (UINT32_MAX - interval tk) + 1));
      init_prime m' a n' (S i)
  end.

Definition init (taskTable : option addr) (num_tasks : N)
    (systick_interval : Z) (w : World) : option (bool * World) :=
  let s := sched w in
  let s1 := mkScheduler (sys_tick_ctr_ s) systick_interval
                        (num_tasks_ s) (task_table_ s) in
  let w1 := set_sched s1 w in
  match taskTable with
  | None => Some (false, w1)
  | Some a =>
      ok ← init_check (mem w1) a (N.to_nat num_tasks) 0;
      if ok : bool then
        let s2 := mkScheduler (sys_tick_ctr_ s1) (systick_interval_ s1)
                              num_tasks (Some a) in
        m' ← init_prime (mem w1) a (N.to_nat num_tasks) 0;
        let s3 := mkScheduler 0 (systick_interval_ s2)
                              (num_tasks_ s2) (task_table_ s2) in
        Some (true, mkWorld m' s3)
      else Some (false, w1)
  end.

(** The two-argument overload. *)
Definition init_default (taskTable : option addr) (num_tasks : N)
    (w : World) : option (bool * World) :=
  init taskTable num_tasks 1 w.

(** ** Tick management *)

Definition tick (w : World) : Z * World :=
  let s := sched w in
  let c := wrap32 (sys_tick_ctr_ s + systick_interval_ s) in
  (c, set_sched (mkScheduler c (systick_interval_ s)
                             (num_tasks_ s) (task_table_ s)) w).

Definition getTickCount (w : World) : Z := sys_tick_ctr_ (sched w).

Definition setTickInterval (systick_interval : Z) (w : World) : World :=
  let s := sched w in
  set_sched (mkScheduler (sys_tick_ctr_ s) systick_interval
                         (num_tasks_ s) (task_table_ s)) w.

(** [sys_tick_ctr_] is a public member so that an interrupt routine can
    assign it without a call; the stored value is the [uint32_t]
    conversion of the assigned one. *)
Definition store_sys_tick_ctr (c : Z) (w : World) : World :=
  let s := sched w in
  set_sched (mkScheduler (wrap32 c) (systick_interval_ s)
                         (num_tasks_ s) (task_table_ s)) w.

(** ** Scheduler::run *)

(** The loop of [run] with [n] iterations left before [i < num_tasks_]
    fails, at index [i]. *)
Fixpoint run_loop (n i : nat) (w : World)
  : option (World * list Event * loop_exit) :=
  match n with
  | O => Some (w, [], Finished)
  | S n' =>
      let sysctr := sys_tick_ctr_ (sched w) in
      a ← task_table_ (sched w);
      tk ← read_task (mem w) a i;
      match func tk with
      | None => Some (w, [], Broke i)
      | Some f =>
          if interval tk =? 0 then
            '(w', tr, e) ← run_loop n' (S i) w;
            Some (w', mkEvent i f sysctr :: tr, e)
          else if interval tk <=? wrap32 (sysctr - last_called_ tk) then
            m' ← write_last_called (mem w) a i sysctr;
            '(w', tr, e) ← run_loop n' (S i) (set_mem m' w);
            Some (w', mkEvent i f sysctr :: tr, e)
          else run_loop n' (S i) w
      end
  end.

Definition run (w : World) : option (World * list Event * loop_exit) :=
  run_loop (N.to_nat (num_tasks_ (sched w))) 0 w.

(** ** Clients of the public interface *)

(** What a driver loop and a timer routine can do to a bound scheduler. *)
Inductive op :=
| OpRun
| OpTick
| OpSetTickInterval (systick_interval : Z)
| OpStoreCounter (c : Z).

Definition step (o : op) (w : World) : option (World * list Event) :=
  match o with
  | OpRun => '(w', tr, _) ← run w; Some (w', tr)
  | OpTick => Some (snd (tick w), [])
  | OpSetTickInterval s => Some (setTickInterval s w, [])
  | OpStoreCounter c => Some (store_sys_tick_ctr c w, [])
  end.

(** A sequence of operations, with the calls it makes in order. *)
Fixpoint exec (ops : list op) (w : World) : option (World * list Event) :=
  match ops with
  | [] => Some (w, [])
  | o :: ops' =>
      '(w1, tr1) ← step o w;
      '(w2, tr2) ← exec ops' w1;
      Some (w2, tr1 ++ tr2)
  end.

(** [tick()] called once per element of [steps], each time after
    [setTickInterval] with that element. *)
Definition advance (steps : list Z) (w : World) : World :=
  foldl (λ w s, snd (tick (setTickInterval s w))) w steps.

(** Ticks added by [advance steps] when nothing overflows. *)
Definition sum_ticks (steps : list Z) : Z := foldr Z.add 0 steps.

(** The usual main loop, [m] rounds of [run()] followed by one [tick()]. *)
Fixpoint driver (m : nat) : list op :=
  match m with
  | O => []
  | S m' => driver m' ++ [OpRun; OpTick]
  end.

(** [k] calls of [tick()]. *)
Definition ticks (k : nat) (w : World) : World :=
  Nat.iter k (λ w, snd (tick w)) w.

(** ** Specification vocabulary *)

(** Number of calls of the task at position [j] in a trace. *)
Definition calls_of (j : nat) (tr : list Event) : nat :=
  length (filter (λ ev, ev_idx ev = j) tr).

(** Snapshot of the latest call of the task at position [j], if any. *)
Definition last_tick (j : nat) (tr : list Event) : option Z :=
  ev_tick <$> last (filter (λ ev, ev_idx ev = j) tr).

(** The test [run] applies to a descriptor with a non-null action. *)
Definition due (sysctr : Z) (tk : Task) : bool :=
  (interval tk =? 0) || (interval tk <=? wrap32 (sysctr - last_called_ tk)).

(** The descriptor after its action was called at snapshot [sysctr]. *)
Definition called_at (sysctr : Z) (tk : Task) : Task :=
  if interval tk =? 0 then tk else with_last_called sysctr tk.

(** The part of a table that the scheduler never writes. *)
Definition shape (t : list Task) : list (option code_ptr * Z) :=
  (λ tk, (func tk, interval tk)) <$> t.

(** [run] stays inside an array [t] for a count [n]: the array has [n]
    entries, or one of its entries stops the loop. *)
Definition safe (n : nat) (t : list Task) : Prop :=
  (n ≤ length t)%nat ∨ ∃ k tk, t !! k = Some tk ∧ func tk = None.

(** Every one of the first [n] entries has an action. *)
Definition all_funcs (n : nat) (t : list Task) : Prop :=
  ∀ j, (j < n)%nat → ∃ tk f, t !! j = Some tk ∧ func tk = Some f.

(** The scheduler is bound to the array [t] at [a] with count [n]. *)
Definition bound_to (w : World) (a : addr) (n : N) (t : list Task) : Prop :=
  task_table_ (sched w) = Some a ∧ num_tasks_ (sched w) = n ∧
  mem w !! a = Some t.

Definition unbound (w : World) : Prop :=
  task_table_ (sched w) = None ∧ num_tasks_ (sched w) = 0%N.

(** Position at which the loop stopped. *)
Definition exit_pos (n i : nat) (e : loop_exit) : nat :=
  match e with
  | Finished => (i + n)%nat
  | Broke k => k
  end.

(** The loop of [run] on the bound array alone, at a fixed counter value. *)
Fixpoint run_table (n i : nat) (c : Z) (t : list Task)
  : option (list Task * list Event * loop_exit) :=
  match n with
  | O => Some (t, [], Finished)
  | S n' =>
      tk ← t !! i;
      match func tk with
      | None => Some (t, [], Broke i)
      | Some f =>
          if due c tk then
            '(t', tr, e) ← run_table n' (S i) c (<[i := called_at c tk]> t);
            Some (t', mkEvent i f c :: tr, e)
          else run_table n' (S i) c t
      end
  end.

(** The descriptor as [init] leaves it. *)
Definition primed (tk : Task) : Task :=
  with_last_called (wrap32 (wrap32 (UINT32_MAX - interval tk) + 1)) tk.

(** What a client can observe between a world [w] bound to the array [t]
    and a later world [w'] with array [t'], the calls in between being [h]:
    the binding and the static part of the table stay, other arrays are
    not touched, every call runs the action stored at its position, no
    position at or after a null action or the count is called, and
    [last_called_] of a periodic task is the snapshot of its latest call. *)
Definition evolves (a : addr) (n : N) (w : World) (t : list Task)
    (h : list Event) (w' : World) (t' : list Task) : Prop :=
  bound_to w' a n t' ∧ shape t' = shape t ∧
  (∀ b, b ≠ a → mem w' !! b = mem w !! b) ∧
  Forall (λ ev, ∃ tk, t !! ev_idx ev = Some tk ∧
                      func tk = Some (ev_fn ev)) h ∧
  (∀ j, (N.to_nat n ≤ j)%nat → calls_of j h = 0%nat) ∧
  (∀ j k tk, t !! k = Some tk → func tk = None → (k ≤ j)%nat →
             calls_of j h = 0%nat) ∧
  (∀ j tk, t !! j = Some tk →
     ∃ tk', t' !! j = Some tk' ∧
       last_called_ tk' =
       if interval tk =? 0 then last_called_ tk
       else default (last_called_ tk) (last_tick j h)).

(** ** Sample configurations *)

Definition fresh (m : gmap addr (list Task)) : World :=
  mkWorld m Scheduler_new.

(** One periodic task of interval 10, as in the example scenario. *)
Definition one_periodic : World :=
  fresh {[ 1%positive := [Task_new (Some 7%positive) 10] ]}.

Definition one_periodic_bound : World :=
  mkWorld {[ 1%positive := [mkTask (Some 7%positive) 10 4294967286] ]}
          (mkScheduler 0 1 1 (Some 1%positive)).

(** A continuous task followed by two periodic ones. *)
Definition three_tasks : list Task :=
  [Task_new (Some 7%positive) 0; Task_new (Some 8%positive) 10;
   Task_new (Some 9%positive) 3].

Definition three_tasks_bound : World :=
  mkWorld {[ 1%positive :=
             [mkTask (Some 7%positive) 0 0;
              mkTask (Some 8%positive) 10 4294967286;
              mkTask (Some 9%positive) 3 4294967293] ]}
          (mkScheduler 0 1 3 (Some 1%positive)).

(** A table whose second entry has no action. *)
Definition with_null : list Task :=
  [Task_new (Some 7%positive) 0; Task_new None 5;
   Task_new (Some 9%positive) 0].

(** A scheduler bound to [three_tasks] at address 1, tick step 1, counter
    40, with a second array at address 2 that holds a null action. *)
Definition rebind_world : World :=
  mkWorld {[ 1%positive := three_tasks; 2%positive := with_null ]}
          (mkScheduler 40 1 3 (Some 1%positive)).

(** [one_periodic_bound] after its task was called at counter
    [2^32 - 5]. *)
Definition near_max_fired : World :=
  mkWorld {[ 1%positive := [mkTask (Some 7%positive) 10 4294967291] ]}
          (mkScheduler 4294967291 1 1 (Some 1%positive)).

(** A scheduler whose bound table was given a null action after [init]. *)
Definition truncated_world : World :=
  mkWorld {[ 1%positive := with_null ]}
          (mkScheduler 0 1 3 (Some 1%positive)).

(** * Properties *)

(** Decide every [decide] in sight, then close by computation or linear
    arithmetic. *)
Local Ltac by_cases := repeat case_decide; (done || lia).

(** ** Arithmetic modulo [2^32] *)

Module Wrap32.

Lemma range z : is_uint32 (wrap32 z).
Proof. unfold is_uint32, wrap32. apply Z.mod_pos_bound. lia. Qed.

Lemma small z : is_uint32 z → wrap32 z = z.
Proof. unfold is_uint32, wrap32. intros H. apply Z.mod_small. lia. Qed.

Lemma sub_l a b : wrap32 (wrap32 a - b) = wrap32 (a - b).
Proof. unfold wrap32. apply Zminus_mod_idemp_l. Qed.

Lemma add_l a b : wrap32 (wrap32 a + b) = wrap32 (a + b).
Proof. unfold wrap32. apply Zplus_mod_idemp_l. Qed.

(** The value stored by [init]: [UINT32_MAX - K + 1] is [-K] modulo [2^32]. *)
Lemma init_value K : wrap32 (wrap32 (UINT32_MAX - K) + 1) = wrap32 (- K).
Proof.
  rewrite add_l. unfold wrap32, UINT32_MAX.
  replace (4294967295 - K + 1) with (- K + 1 * 2 ^ 32) by lia.
  apply Z.mod_add. lia.
Qed.

(** Seen from the primed value, counter [0] is exactly [K] ticks later. *)
Lemma init_value_elapsed K :
  is_uint32 K → wrap32 (0 - wrap32 (wrap32 (UINT32_MAX - K) + 1)) = K.
Proof.
  intros HK. rewrite init_value. unfold wrap32.
  rewrite Zminus_mod_idemp_r. replace (0 - - K) with K by lia.
  apply Z.mod_small. exact HK.
Qed.

(** The modular difference recovers the true number of elapsed ticks,
    whether or not the counter wrapped in between. *)
Lemma elapsed s e :
  is_uint32 e → wrap32 (wrap32 (s + e) - s) = e.
Proof.
  intros He. rewrite sub_l. replace (s + e - s) with e by lia.
  apply small, He.
Qed.

End Wrap32.

(** ** Traces *)

Lemma calls_of_nil j : calls_of j [] = 0%nat.
Proof. reflexivity. Qed.

Lemma calls_of_cons j ev tr :
  calls_of j (ev :: tr) =
  ((if decide (ev_idx ev = j) then 1 else 0) + calls_of j tr)%nat.
Proof. unfold calls_of. rewrite filter_cons. by case_decide. Qed.

Lemma calls_of_app j tr1 tr2 :
  calls_of j (tr1 ++ tr2) = (calls_of j tr1 + calls_of j tr2)%nat.
Proof. unfold calls_of. by rewrite filter_app, length_app. Qed.

Lemma last_tick_app j tr1 tr2 :
  last_tick j (tr1 ++ tr2) =
  match last_tick j tr2 with
  | Some s => Some s
  | None => last_tick j tr1
  end.
Proof.
  unfold last_tick. rewrite filter_app.
  destruct (filter (λ ev, ev_idx ev = j) tr2) as [|x l] eqn:E using rev_ind.
  - by rewrite app_nil_r.
  - by rewrite app_assoc, !last_snoc.
Qed.

Lemma last_tick_no_calls j tr : calls_of j tr = 0%nat → last_tick j tr = None.
Proof.
  unfold calls_of, last_tick. intros H.
  apply length_zero_iff_nil in H. by rewrite H.
Qed.

(** A trace whose events all carry the snapshot [c]. *)
Lemma last_tick_called j c tr :
  Forall (λ ev, ev_tick ev = c) tr →
  calls_of j tr ≠ 0%nat → last_tick j tr = Some c.
Proof.
  unfold calls_of, last_tick. intros Hall Hn.
  assert (Hf : Forall (λ ev, ev_tick ev = c)
                 (filter (λ ev, ev_idx ev = j) tr)).
  { apply Forall_forall. intros x Hx. apply list_elem_of_filter in Hx.
    rewrite Forall_forall in Hall. apply Hall. tauto. }
  destruct (filter (λ ev, ev_idx ev = j) tr) as [|x l] using rev_ind;
    [done|].
  rewrite last_snoc. simpl. f_equal.
  apply Forall_app in Hf as [_ Hx]. by inversion Hx.
Qed.

(** ** The static part of a table *)

Lemma shape_called_at i c tk (t : list Task) :
  t !! i = Some tk → shape (<[i := called_at c tk]> t) = shape t.
Proof.
  intros Hi. unfold shape. rewrite list_fmap_insert.
  apply list_insert_id. rewrite list_lookup_fmap, Hi. simpl.
  unfold called_at. by destruct (interval tk =? 0).
Qed.

Lemma shape_lookup (t t' : list Task) j tk' :
  shape t' = shape t → t' !! j = Some tk' →
  ∃ tk, t !! j = Some tk ∧ func tk = func tk' ∧ interval tk = interval tk'.
Proof.
  intros Hs Hj. assert (H : shape t !! j = shape t' !! j) by by rewrite Hs.
  unfold shape in H. rewrite !list_lookup_fmap, Hj in H. simpl in H.
  destruct (t !! j) as [tk|]; [|done]. simpl in H.
  exists tk. split; [done|]. by inversion H.
Qed.

Lemma shape_length (t t' : list Task) :
  shape t' = shape t → length t' = length t.
Proof.
  intros Hs. assert (H : length (shape t') = length (shape t)) by by rewrite Hs.
  unfold shape in H. by rewrite !length_fmap in H.
Qed.

Lemma safe_shape n (t t' : list Task) :
  shape t' = shape t → safe n t → safe n t'.
Proof.
  intros Hs [Hlen | (k & tk & Hk & Hnull)].
  - left. by rewrite (shape_length _ _ Hs).
  - right. symmetry in Hs.
    destruct (shape_lookup _ _ _ _ Hs Hk) as (tk' & Hk' & Hf & _).
    exists k, tk'. split; [done|]. congruence.
Qed.

Lemma all_funcs_shape n (t t' : list Task) :
  shape t' = shape t → all_funcs n t → all_funcs n t'.
Proof.
  intros Hs Hall j Hj. destruct (Hall j Hj) as (tk & f & Htk & Hf).
  symmetry in Hs. destruct (shape_lookup _ _ _ _ Hs Htk) as (tk' & ? & ? & _).
  exists tk', f. split; [done|]. congruence.
Qed.

(** ** The dispatch loop on one array *)

(** Case analysis and induction along the iterations of the loop. *)
Lemma run_table_cases (c : Z)
    (P : nat → nat → list Task → list Task → list Event → loop_exit → Prop) :
  (∀ i t, P O i t t [] Finished) →
  (∀ n i t tk, t !! i = Some tk → func tk = None →
     P (S n) i t t [] (Broke i)) →
  (∀ n i t tk f t' tr e,
     t !! i = Some tk → func tk = Some f → due c tk = true →
     run_table n (S i) c (<[i := called_at c tk]> t) = Some (t', tr, e) →
     P n (S i) (<[i := called_at c tk]> t) t' tr e →
     P (S n) i t t' (mkEvent i f c :: tr) e) →
  (∀ n i t tk f t' tr e,
     t !! i = Some tk → func tk = Some f → due c tk = false →
     run_table n (S i) c t = Some (t', tr, e) →
     P n (S i) t t' tr e →
     P (S n) i t t' tr e) →
  ∀ n i t t' tr e, run_table n i c t = Some (t', tr, e) → P n i t t' tr e.
Proof.
  intros H0 Hbrk Hdue Hskip.
  induction n as [|n IH]; intros i t t' tr e H; simpl in H.
  - inversion H; subst. apply H0.
  - destruct (t !! i) as [tk|] eqn:Hi; simpl in H; [|done].
    destruct (func tk) as [f|] eqn:Hf.
    + destruct (due c tk) eqn:Hd.
      * destruct (run_table n (S i) c (<[i:=called_at c tk]> t))
          as [[[t1 tr1] e1]|] eqn:Hr; simpl in H; [|done].
        inversion H; subst. eapply Hdue; eauto.
      * eapply Hskip; eauto.
    + inversion H; subst. eapply Hbrk; eauto.
Qed.

Lemma run_table_shape n i c t t' tr e :
  run_table n i c t = Some (t', tr, e) → shape t' = shape t.
Proof.
  revert n i t t' tr e. apply run_table_cases; [done|done| |done].
  intros n i t tk f t' tr e Hi _ _ _ IH.
  rewrite IH. by apply shape_called_at.
Qed.

Lemma exit_pos_S n i e : exit_pos (S n) i e = exit_pos n (S i) e.
Proof. destruct e; simpl; lia. Qed.

(** Where the loop can stop, and what it has seen when it stops. *)
Lemma run_table_exit n i c t t' tr e :
  run_table n i c t = Some (t', tr, e) →
  (i ≤ exit_pos n i e ≤ i + n)%nat ∧
  (∀ j, (i ≤ j < exit_pos n i e)%nat →
        ∃ tk f, t !! j = Some tk ∧ func tk = Some f) ∧
  (∀ k, e = Broke k →
        (k < i + n)%nat ∧ ∃ tk, t !! k = Some tk ∧ func tk = None).
Proof.
  revert n i t t' tr e. apply run_table_cases.
  - intros i t. simpl. split; [lia|]. split; [intros; lia|done].
  - intros n i t tk Hi Hf. simpl. split; [lia|]. split; [intros; lia|].
    intros k [= <-]. split; [lia|eauto].
  - intros n i t tk f t' tr e Hi Hf _ _ (Hr & Hin & Hbrk).
    pose proof (exit_pos_S n i e) as Hpos.
    rewrite Hpos. split; [lia|]. split.
    + intros j Hj. destruct (decide (j = i)) as [->|Hne]; [eauto|].
      destruct (Hin j ltac:(lia)) as (tk' & f' & Hj' & Hf').
      rewrite list_lookup_insert_ne in Hj' by done. eauto.
    + intros k Hk. destruct (Hbrk k Hk) as (Hlt & tk' & Hk' & Hf').
      split; [lia|].
      destruct (decide (k = i)) as [->|Hne].
      * subst e. simpl in Hr. lia.
      * rewrite list_lookup_insert_ne in Hk' by done. eauto.
  - intros n i t tk f t' tr e Hi Hf _ _ (Hr & Hin & Hbrk).
    pose proof (exit_pos_S n i e) as Hpos.
    rewrite Hpos. split; [lia|]. split.
    + intros j Hj. destruct (decide (j = i)) as [->|Hne]; [eauto|].
      apply Hin. lia.
    + intros k Hk. destruct (Hbrk k Hk) as (Hlt & Hnull).
      split; [lia|done].
Qed.

(** The descriptor at position [j] after one pass over the table. *)
Lemma run_table_lookup n i c t t' tr e :
  run_table n i c t = Some (t', tr, e) →
  ∀ j, t' !! j =
       if decide (i ≤ j < exit_pos n i e)%nat
       then (λ tk, if due c tk then called_at c tk else tk) <$> t !! j
       else t !! j.
Proof.
  revert n i t t' tr e.
  apply (run_table_cases c (λ n i t t' _ e, ∀ j, t' !! j =
           if decide (i ≤ j < exit_pos n i e)%nat
           then (λ tk, if due c tk then called_at c tk else tk) <$> t !! j
           else t !! j)).
  - intros i t j. simpl. case_decide; [lia|done].
  - intros n i t tk _ _ j. simpl. case_decide; [lia|done].
  - intros n i t tk f t' tr e Hi Hf Hd Hrun IH j.
    apply run_table_exit in Hrun as (Hr & _).
    pose proof (exit_pos_S n i e) as Hpos.
    rewrite IH, Hpos. destruct (decide (j = i)) as [->|Hne].
    + rewrite list_lookup_insert_eq by by eapply lookup_lt_Some.
      rewrite Hi. simpl. rewrite Hd.
      by_cases.
    + rewrite list_lookup_insert_ne by done.
      by_cases.
  - intros n i t tk f t' tr e Hi Hf Hd Hrun IH j.
    apply run_table_exit in Hrun as (Hr & _).
    pose proof (exit_pos_S n i e) as Hpos.
    rewrite IH, Hpos. destruct (decide (j = i)) as [->|Hne].
    + rewrite Hi. simpl. rewrite Hd. by_cases.
    + by_cases.
Qed.

(** How often the task at position [j] is called in one pass. *)
Lemma run_table_calls n i c t t' tr e :
  run_table n i c t = Some (t', tr, e) →
  ∀ j, calls_of j tr =
       if decide (i ≤ j < exit_pos n i e)%nat
       then match t !! j with
            | Some tk => if due c tk then 1%nat else 0%nat
            | None => 0%nat
            end
       else 0%nat.
Proof.
  revert n i t t' tr e.
  apply (run_table_cases c (λ n i t _ tr e, ∀ j, calls_of j tr =
           if decide (i ≤ j < exit_pos n i e)%nat
           then match t !! j with
                | Some tk => if due c tk then 1%nat else 0%nat
                | None => 0%nat
                end
           else 0%nat)).
  - intros i t j. simpl. case_decide; [lia|done].
  - intros n i t tk _ _ j. simpl. case_decide; [lia|done].
  - intros n i t tk f t' tr e Hi Hf Hd Hrun IH j.
    apply run_table_exit in Hrun as (Hr & _).
    pose proof (exit_pos_S n i e) as Hpos.
    rewrite calls_of_cons, IH, Hpos. simpl.
    destruct (decide (j = i)) as [->|Hne].
    + rewrite Hi, Hd. by_cases.
    + rewrite list_lookup_insert_ne by done.
      by_cases.
  - intros n i t tk f t' tr e Hi Hf Hd Hrun IH j.
    apply run_table_exit in Hrun as (Hr & _).
    pose proof (exit_pos_S n i e) as Hpos.
    rewrite IH, Hpos. destruct (decide (j = i)) as [->|Hne].
    + rewrite Hi, Hd. by_cases.
    + by_cases.
Qed.

(** Every call of a pass carries the counter value of that pass and the
    action stored at its position. *)
Lemma run_table_events n i c t t' tr e :
  run_table n i c t = Some (t', tr, e) →
  Forall (λ ev, ev_tick ev = c ∧
                ∃ tk, t !! ev_idx ev = Some tk ∧ func tk = Some (ev_fn ev)) tr.
Proof.
  revert n i t t' tr e.
  apply (run_table_cases c (λ _ _ t _ tr _,
           Forall (λ ev, ev_tick ev = c ∧
             ∃ tk, t !! ev_idx ev = Some tk ∧ func tk = Some (ev_fn ev)) tr));
    [by constructor|by constructor| |done].
  intros n i t tk f t' tr e Hi Hf Hd Hrun IH. constructor.
  - simpl. eauto.
  - eapply Forall_impl; [exact IH|]. intros ev (Ht & tk' & Hk & Hfn).
    split; [done|]. destruct (decide (ev_idx ev = i)) as [Heq|Hne].
    + rewrite Heq in *.
      rewrite list_lookup_insert_eq in Hk by by eapply lookup_lt_Some.
      inversion Hk; subst tk'. exists tk. split; [done|].
      unfold called_at in Hfn. by destruct (interval tk =? 0).
    + rewrite list_lookup_insert_ne in Hk by done. eauto.
Qed.

(** The pass is defined whenever the table is long enough or holds a
    null action that stops it. *)
Lemma run_table_total c n : ∀ i t,
  (i + n ≤ length t)%nat ∨
  (∃ k tk, (i ≤ k)%nat ∧ t !! k = Some tk ∧ func tk = None) →
  is_Some (run_table n i c t).
Proof.
  induction n as [|n IH]; intros i t Hsafe; simpl; [done|].
  assert (Hi : is_Some (t !! i)).
  { apply lookup_lt_is_Some.
    destruct Hsafe as [?|(k & tk & ? & Hk & _)]; [lia|].
    apply lookup_lt_Some in Hk. lia. }
  destruct Hi as [tk Hi]. rewrite Hi. simpl.
  destruct (func tk) as [f|] eqn:Hf; [|done].
  assert (Hnext : ∀ t1, shape t1 = shape t →
            (∀ k, k ≠ i → t1 !! k = t !! k) →
            is_Some (run_table n (S i) c t1)).
  { intros t1 Hs Hk1. apply IH.
    destruct Hsafe as [?|(k & tk' & ? & Hk & Hnull)].
    - left. rewrite (shape_length _ _ Hs). lia.
    - right. exists k, tk'. assert (k ≠ i) by (intros ->; congruence).
      rewrite Hk1 by done. split; [lia|done]. }
  destruct (due c tk).
  - destruct (Hnext (<[i:=called_at c tk]> t)) as [[[t1 tr1] e1] ->].
    + by apply shape_called_at.
    + intros k Hk. by rewrite list_lookup_insert_ne.
    + done.
  - by apply Hnext.
Qed.

(** ** From the array to the store *)

Lemma set_mem_id w a (t : list Task) :
  mem w !! a = Some t → set_mem (<[a := t]> (mem w)) w = w.
Proof.
  intros H. destruct w as [m s]. unfold set_mem. simpl in *.
  by rewrite insert_id.
Qed.

(** The loop of [run] only ever touches the bound array. *)
Lemma run_loop_table n : ∀ i w a t,
  task_table_ (sched w) = Some a → mem w !! a = Some t →
  run_loop n i w =
  '(t', tr, e) ← run_table n i (sys_tick_ctr_ (sched w)) t;
  Some (set_mem (<[a := t']> (mem w)) w, tr, e).
Proof.
  induction n as [|n IH]; intros i w a t Ha Hm; simpl.
  - by rewrite set_mem_id.
  - rewrite Ha. simpl. unfold read_task. rewrite Hm. simpl.
    destruct (t !! i) as [tk|] eqn:Hi; simpl; [|done].
    destruct (func tk) as [f|] eqn:Hf; simpl; [|by rewrite set_mem_id].
    unfold due, called_at.
    destruct (interval tk =? 0) eqn:Hz; simpl.
    + rewrite (list_insert_id t i tk) by done.
      rewrite (IH (S i) w a t) by done.
      by destruct (run_table n (S i) _ t) as [[[t1 tr1] e1]|].
    + destruct (interval tk <=? _) eqn:Hd; simpl.
      * unfold write_last_called. rewrite Hm. simpl. rewrite Hi. simpl.
        rewrite (IH (S i) _ a (<[i := with_last_called
                   (sys_tick_ctr_ (sched w)) tk]> t)); simpl;
          [|done|by rewrite lookup_insert_eq].
        destruct (run_table n (S i) _ _) as [[[t1 tr1] e1]|]; [|done].
        simpl. unfold set_mem. simpl. by rewrite insert_insert_eq.
      * by apply IH.
Qed.

(** One cycle of a bound scheduler, reduced to the pass over its array. *)
Lemma run_spec w a n t :
  bound_to w a n t → safe (N.to_nat n) t →
  ∃ t' tr e,
    run w = Some (set_mem (<[a := t']> (mem w)) w, tr, e) ∧
    run_table (N.to_nat n) 0 (sys_tick_ctr_ (sched w)) t = Some (t', tr, e).
Proof.
  intros (Ha & Hn & Hm) Hsafe. unfold run.
  rewrite (run_loop_table _ _ _ _ _ Ha Hm), Hn.
  destruct (run_table_total (sys_tick_ctr_ (sched w)) (N.to_nat n) 0 t)
    as [[[t' tr] e] Hr].
  - destruct Hsafe as [?|(k & tk & ? & ?)]; [left; lia|].
    right. exists k, tk. split; [lia|done].
  - rewrite Hr. simpl. eauto.
Qed.

(** ** Histories of a bound scheduler *)

Lemma evolves_sched a n w t w' :
  bound_to w a n t → mem w' = mem w →
  task_table_ (sched w') = task_table_ (sched w) →
  num_tasks_ (sched w') = num_tasks_ (sched w) →
  evolves a n w t [] w' t.
Proof.
  intros (Ha & Hn & Hm) Hmem Htab Hnum. unfold evolves, bound_to.
  rewrite Hmem, Htab, Hnum. repeat split; try done.
  intros j tk Hj. exists tk. split; [done|].
  simpl. by destruct (interval tk =? 0).
Qed.

Lemma evolves_trans a n w t h1 w1 t1 h2 w2 t2 :
  evolves a n w t h1 w1 t1 → evolves a n w1 t1 h2 w2 t2 →
  evolves a n w t (h1 ++ h2) w2 t2.
Proof.
  intros (_ & Hs1 & Hf1 & He1 & Hn1 & Hz1 & Hl1)
         (Hb2 & Hs2 & Hf2 & He2 & Hn2 & Hz2 & Hl2).
  split; [done|]. split; [congruence|]. split.
  { intros b Hb. rewrite Hf2, Hf1; done. }
  split.
  { apply Forall_app. split; [done|].
    eapply Forall_impl; [exact He2|]. intros ev (tk1 & Hk & Hfn).
    destruct (shape_lookup _ _ _ _ Hs1 Hk) as (tk & ? & ? & _).
    exists tk. split; [done|]. congruence. }
  split.
  { intros j Hj. rewrite calls_of_app, Hn1, Hn2; done. }
  split.
  { intros j k tk Hk Hnull Hkj. rewrite calls_of_app.
    rewrite (Hz1 j k tk) by done.
    destruct (Hl1 k tk Hk) as (tk1 & Hk1 & _).
    destruct (shape_lookup _ _ _ _ Hs1 Hk1) as (tk0 & Hk0 & Hfn & _).
    rewrite (Hz2 j k tk1); [done|done| |done]. congruence. }
  intros j tk Hj.
  destruct (Hl1 j tk Hj) as (tk1 & Hj1 & Hlc1).
  destruct (Hl2 j tk1 Hj1) as (tk2 & Hj2 & Hlc2).
  destruct (shape_lookup _ _ _ _ Hs1 Hj1) as (tk0 & Hj0 & _ & Hiv).
  assert (tk0 = tk) by congruence. subst tk0.
  exists tk2. split; [done|]. rewrite Hlc2, <- Hiv, Hlc1, last_tick_app.
  destruct (interval tk =? 0); [done|].
  by destruct (last_tick j h2).
Qed.

(** One dispatch cycle. *)
Lemma run_evolves a n w t :
  bound_to w a n t → safe (N.to_nat n) t →
  ∃ w' tr e t', run w = Some (w', tr, e) ∧ evolves a n w t tr w' t' ∧
    sched w' = sched w ∧
    run_table (N.to_nat n) 0 (sys_tick_ctr_ (sched w)) t = Some (t', tr, e).
Proof.
  intros Hb Hsafe.
  destruct (run_spec w a n t Hb Hsafe) as (t' & tr & e & Hrun & Htab).
  destruct Hb as (Ha & Hn & Hm).
  exists (set_mem (<[a := t']> (mem w)) w), tr, e, t'.
  split; [done|]. split; [|done].
  pose proof (run_table_exit _ _ _ _ _ _ _ Htab) as (Hpos & Hin & _).
  pose proof (run_table_calls _ _ _ _ _ _ _ Htab) as Hcalls.
  pose proof (run_table_lookup _ _ _ _ _ _ _ Htab) as Hlook.
  pose proof (run_table_events _ _ _ _ _ _ _ Htab) as Hev.
  split.
  { split; [done|]. split; [done|]. simpl. by rewrite lookup_insert_eq. }
  split; [by eapply run_table_shape|]. split.
  { intros b Hb. simpl. by rewrite lookup_insert_ne. }
  split.
  { eapply Forall_impl; [exact Hev|]. simpl. tauto. }
  split.
  { intros j Hj. rewrite Hcalls. case_decide; [lia|done]. }
  split.
  { intros j k tk Hk Hnull Hkj. rewrite Hcalls. case_decide; [|done].
    destruct (Hin k ltac:(lia)) as (tk' & f & ? & ?). congruence. }
  intros j tk Hj. rewrite Hlook, Hj. specialize (Hcalls j).
  rewrite Hj in Hcalls. revert Hcalls.
  case_decide; intros Hcalls; simpl.
  - destruct (due _ tk) eqn:Hd.
    + exists (called_at (sys_tick_ctr_ (sched w)) tk). split; [done|].
      unfold called_at. destruct (interval tk =? 0) eqn:Hz; [done|].
      rewrite (last_tick_called j (sys_tick_ctr_ (sched w))); [done| |lia].
      eapply Forall_impl; [exact Hev|]. simpl. tauto.
    + exists tk. split; [done|]. rewrite last_tick_no_calls by done.
      simpl. by destruct (interval tk =? 0).
  - exists tk. split; [done|]. rewrite last_tick_no_calls by done.
    simpl. by destruct (interval tk =? 0).
Qed.

Lemma step_evolves a n o w t :
  bound_to w a n t → safe (N.to_nat n) t →
  ∃ w' tr t', step o w = Some (w', tr) ∧ evolves a n w t tr w' t'.
Proof.
  intros Hb Hsafe. destruct o as [| |s|c]; simpl.
  - destruct (run_evolves a n w t Hb Hsafe)
      as (w' & tr & e & t' & -> & Hev & _).
    simpl. eauto.
  - eexists _, _, t. split; [done|]. by apply evolves_sched.
  - eexists _, _, t. split; [done|]. by apply evolves_sched.
  - eexists _, _, t. split; [done|]. by apply evolves_sched.
Qed.

(** Any client program runs to completion on a bound scheduler. *)
Lemma exec_evolves a n ops : ∀ w t,
  bound_to w a n t → safe (N.to_nat n) t →
  ∃ w' h t', exec ops w = Some (w', h) ∧ evolves a n w t h w' t'.
Proof.
  induction ops as [|o ops IH]; intros w t Hb Hsafe; simpl.
  - eexists _, _, t. split; [done|]. by apply evolves_sched.
  - destruct (step_evolves a n o w t Hb Hsafe) as (w1 & tr1 & t1 & -> & H1).
    simpl. destruct (IH w1 t1) as (w2 & tr2 & t2 & -> & H2).
    + apply H1.
    + eapply safe_shape; [|exact Hsafe]. apply H1.
    + simpl. eexists _, _, t2. split; [done|]. by eapply evolves_trans.
Qed.

(** ** Initialisation *)

Lemma all_funcs_length n (t : list Task) :
  all_funcs n t → (n ≤ length t)%nat.
Proof.
  intros Hall. destruct n as [|n]; [lia|].
  destruct (Hall n ltac:(lia)) as (tk & _ & Hk & _).
  apply lookup_lt_Some in Hk. lia.
Qed.

Lemma all_funcs_safe n (t : list Task) : all_funcs n t → safe n t.
Proof. intros H. left. by apply all_funcs_length. Qed.

Lemma shape_primed i tk (t : list Task) :
  t !! i = Some tk → shape (<[i := primed tk]> t) = shape t.
Proof.
  intros Hi. unfold shape. rewrite list_fmap_insert.
  apply list_insert_id. by rewrite list_lookup_fmap, Hi.
Qed.

(** The validation loop accepts exactly when it has read an action at
    every position it visited. *)
Lemma init_check_true m a t n : ∀ i,
  m !! a = Some t → init_check m a n i = Some true →
  ∀ j, (i ≤ j < i + n)%nat → ∃ tk f, t !! j = Some tk ∧ func tk = Some f.
Proof.
  induction n as [|n IH]; intros i Hm Hc j Hj; [lia|].
  simpl in Hc. unfold read_task in Hc. rewrite Hm in Hc. simpl in Hc.
  destruct (t !! i) as [tk|] eqn:Hi; simpl in Hc; [|done].
  destruct (func tk) as [f|] eqn:Hf; [|done].
  destruct (decide (j = i)) as [->|Hne]; [eauto|].
  apply (IH (S i)); [done|done|lia].
Qed.

Lemma init_check_false m a n : ∀ i,
  init_check m a n i = Some false →
  ∃ k tk, (i ≤ k < i + n)%nat ∧ read_task m a k = Some tk ∧ func tk = None.
Proof.
  induction n as [|n IH]; intros i Hc; simpl in Hc; [done|].
  destruct (read_task m a i) as [tk|] eqn:Hi; simpl in Hc; [|done].
  destruct (func tk) as [f|] eqn:Hf.
  - destruct (IH (S i) Hc) as (k & tk' & ? & ? & ?).
    exists k, tk'. split; [lia|done].
  - exists i, tk. split; [lia|done].
Qed.

(** The priming loop rewrites [last_called_] at the positions it visits
    and nothing else. *)
Lemma init_prime_table a n : ∀ i m t,
  m !! a = Some t → (i + n ≤ length t)%nat →
  ∃ t', init_prime m a n i = Some (<[a := t']> m) ∧ shape t' = shape t ∧
        ∀ j, t' !! j = if decide (i ≤ j < i + n)%nat
                       then primed <$> t !! j else t !! j.
Proof.
  induction n as [|n IH]; intros i m t Hm Hlen; simpl.
  - exists t. rewrite insert_id by done. split; [done|]. split; [done|].
    intros j. case_decide; [lia|done].
  - unfold read_task, write_last_called. rewrite Hm. simpl.
    destruct (lookup_lt_is_Some_2 t i ltac:(lia)) as [tk Hi].
    rewrite Hi. simpl. fold (primed tk).
    destruct (IH (S i) (<[a := <[i := primed tk]> t]> m)
                 (<[i := primed tk]> t)) as (t' & -> & Hs & Hl).
    + by rewrite lookup_insert_eq.
    + rewrite length_insert. lia.
    + exists t'. rewrite insert_insert_eq. split; [done|]. split.
      * rewrite Hs. by apply shape_primed.
      * intros j. rewrite Hl. destruct (decide (j = i)) as [->|Hne].
        -- rewrite list_lookup_insert_eq by by eapply lookup_lt_Some.
           rewrite Hi. by_cases.
        -- rewrite list_lookup_insert_ne by done.
           by_cases.
Qed.

(** A failed [init] has stored the tick step and done nothing else. *)
Lemma init_false tbl n stp w w1 :
  init tbl n stp w = Some (false, w1) → w1 = setTickInterval stp w.
Proof.
  unfold init. destruct tbl as [a|]; [|by intros [= <-]].
  destruct (init_check _ a _ 0) as [[|]|]; simpl; [|by intros [= <-]|done].
  by destruct (init_prime _ a _ 0).
Qed.

Lemma init_true_sched tbl n stp w w1 :
  init tbl n stp w = Some (true, w1) →
  tbl = task_table_ (sched w1) ∧ is_Some tbl ∧
  sched w1 = mkScheduler 0 stp n tbl.
Proof.
  unfold init. destruct tbl as [a|]; [|done].
  destruct (init_check _ a _ 0) as [[|]|]; simpl; [|done|done].
  destruct (init_prime _ a _ 0); simpl; [|done].
  intros [= <-]. simpl. eauto.
Qed.

(** A successful [init] on an allocated array. *)
Lemma init_true a n stp w w1 t :
  init (Some a) n stp w = Some (true, w1) → mem w !! a = Some t →
  ∃ t1, bound_to w1 a n t1 ∧ mem w1 = <[a := t1]> (mem w) ∧
        shape t1 = shape t ∧ all_funcs (N.to_nat n) t ∧
        ∀ j, t1 !! j = if decide (j < N.to_nat n)%nat
                       then primed <$> t !! j else t !! j.
Proof.
  intros Hinit Hm. unfold init in Hinit. simpl in Hinit.
  destruct (init_check (mem w) a (N.to_nat n) 0) as [[|]|] eqn:Hc;
    simpl in Hinit; [|done|done].
  assert (Hall : all_funcs (N.to_nat n) t).
  { intros j Hj. eapply (init_check_true _ _ _ _ 0); eauto. lia. }
  destruct (init_prime_table a (N.to_nat n) 0 (mem w) t Hm)
    as (t1 & Hp & Hs & Hl).
  { apply all_funcs_length in Hall. lia. }
  rewrite Hp in Hinit. simpl in Hinit. inversion Hinit; subst w1.
  exists t1. split.
  { split; [done|]. split; [done|]. simpl. by rewrite lookup_insert_eq. }
  split; [done|]. split; [done|]. split; [done|].
  intros j. rewrite Hl. by_cases.
Qed.

(** ** Tick management *)

Lemma advance_cons s steps w :
  advance (s :: steps) w = advance steps (snd (tick (setTickInterval s w))).
Proof. reflexivity. Qed.

(** [advance] changes the counter and the step, nothing else. *)
Lemma advance_frame steps : ∀ w,
  mem (advance steps w) = mem w ∧
  task_table_ (sched (advance steps w)) = task_table_ (sched w) ∧
  num_tasks_ (sched (advance steps w)) = num_tasks_ (sched w).
Proof.
  induction steps as [|s steps IH]; intros w; [done|].
  rewrite advance_cons. destruct (IH (snd (tick (setTickInterval s w))))
    as (-> & -> & ->). done.
Qed.

(** Modulo [2^32], [advance] adds the sum of its steps to the counter. *)
Lemma advance_counter steps : ∀ w,
  wrap32 (getTickCount (advance steps w)) =
  wrap32 (getTickCount w + sum_ticks steps).
Proof.
  induction steps as [|s steps IH]; intros w.
  - simpl. f_equal. lia.
  - rewrite advance_cons, IH. unfold getTickCount. simpl.
    rewrite Wrap32.add_l. f_equal. lia.
Qed.

Lemma sum_ticks_nonneg steps : Forall (λ s, 0 <= s) steps → 0 <= sum_ticks steps.
Proof. induction 1; simpl; lia. Qed.

(** ** Schedulers with nothing to dispatch *)

Lemma run_zero w :
  num_tasks_ (sched w) = 0%N → run w = Some (w, [], Finished).
Proof. unfold run. by intros ->. Qed.

Lemma step_zero o w :
  num_tasks_ (sched w) = 0%N →
  ∃ w', step o w = Some (w', []) ∧ mem w' = mem w ∧
        num_tasks_ (sched w') = 0%N ∧
        task_table_ (sched w') = task_table_ (sched w).
Proof.
  intros Hn. destruct o; simpl.
  - rewrite run_zero by done. simpl. eauto.
  - eauto.
  - eauto.
  - eauto.
Qed.

Lemma exec_zero ops : ∀ w,
  num_tasks_ (sched w) = 0%N →
  ∃ w', exec ops w = Some (w', []) ∧ mem w' = mem w ∧
        num_tasks_ (sched w') = 0%N ∧
        task_table_ (sched w') = task_table_ (sched w).
Proof.
  induction ops as [|o ops IH]; intros w Hn; simpl; [eauto|].
  destruct (step_zero o w Hn) as (w1 & -> & Hm1 & Hn1 & Ht1). simpl.
  destruct (IH w1 Hn1) as (w2 & -> & Hm2 & Hn2 & Ht2). simpl.
  exists w2. split; [done|]. split; [congruence|]. split; [done|congruence].
Qed.

(** [run] does not read the tick step. *)
Lemma run_loop_setTickInterval s n : ∀ i w,
  run_loop n i (setTickInterval s w) =
  (λ '(w', tr, e), (setTickInterval s w', tr, e)) <$> run_loop n i w.
Proof.
  induction n as [|n IH]; intros i w; simpl; [done|].
  destruct (task_table_ (sched w)) as [a|]; simpl; [|done].
  destruct (read_task (mem w) a i) as [tk|]; simpl; [|done].
  destruct (func tk) as [f|]; simpl; [|done].
  destruct (interval tk =? 0).
  - rewrite IH. by destruct (run_loop n (S i) w) as [[[w' tr] e]|].
  - destruct (interval tk <=? _); [|by apply IH].
    destruct (write_last_called (mem w) a i _) as [m'|]; simpl; [|done].
    change (set_mem m' (setTickInterval s w))
      with (setTickInterval s (set_mem m' w)).
    rewrite IH. by destruct (run_loop n (S i) _) as [[[w' tr] e]|].
Qed.

(** [init] only fails on a null table or on a null action among the
    first [n] entries. *)
Lemma init_failure_causes tbl n stp w w1 :
  init tbl n stp w = Some (false, w1) →
  tbl = None ∨
  ∃ a k tk, tbl = Some a ∧ (k < N.to_nat n)%nat ∧
            read_task (mem w) a k = Some tk ∧ func tk = None.
Proof.
  unfold init. destruct tbl as [a|]; [|by left]. intros Hi. right.
  destruct (init_check _ a _ 0) as [[|]|] eqn:Hc; simpl in Hi; [|clear Hi|done].
  - by destruct (init_prime _ a _ 0).
  - destruct (init_check_false _ _ _ _ Hc) as (k & tk & Hk & Hr & Hf).
    exists a, k, tk. split; [done|]. split; [lia|done].
Qed.

(** Apart from the tick step, a failed [init] changes nothing. *)
Lemma init_failure_frame tbl n stp w w1 :
  init tbl n stp w = Some (false, w1) →
  mem w1 = mem w ∧
  task_table_ (sched w1) = task_table_ (sched w) ∧
  num_tasks_ (sched w1) = num_tasks_ (sched w) ∧
  sys_tick_ctr_ (sched w1) = sys_tick_ctr_ (sched w) ∧
  systick_interval_ (sched w1) = stp.
Proof. intros H. by rewrite (init_false _ _ _ _ _ H). Qed.

(** ** Dispatch on validated and on truncated tables *)

Lemma run_table_finished n c t t' tr e :
  all_funcs n t → run_table n 0 c t = Some (t', tr, e) → e = Finished.
Proof.
  intros Hall Hr. destruct e as [|k]; [done|].
  destruct (run_table_exit _ _ _ _ _ _ _ Hr) as (_ & _ & Hb).
  destruct (Hb k eq_refl) as (Hk & tk & Hlook & Hnull).
  destruct (Hall k ltac:(lia)) as (tk' & f & ? & ?). congruence.
Qed.

Lemma run_table_broke n c t t' tr e i tk :
  (i < n)%nat → t !! i = Some tk → func tk = None →
  (∀ k, (k < i)%nat → ∃ tk' f, t !! k = Some tk' ∧ func tk' = Some f) →
  run_table n 0 c t = Some (t', tr, e) → e = Broke i.
Proof.
  intros Hi Hlook Hnull Hbefore Hr.
  destruct (run_table_exit _ _ _ _ _ _ _ Hr) as (_ & Hin & Hb).
  destruct e as [|k].
  - destruct (Hin i ltac:(simpl; lia)) as (tk' & f & ? & ?). congruence.
  - destruct (Hb k eq_refl) as (Hk & tk' & Hlook' & Hnull').
    f_equal. destruct (Nat.lt_trichotomy k i) as [Hlt|[->|Hgt]]; [|done|].
    + destruct (Hbefore k Hlt) as (tk'' & f & ? & ?). congruence.
    + destruct (Hin i ltac:(simpl; lia)) as (tk'' & f & ? & ?). congruence.
Qed.

(** One cycle over a table all of whose [n] entries have an action: the
    loop runs to its end and calls exactly the due entries. *)
Lemma run_validated a n w t :
  bound_to w a n t → all_funcs (N.to_nat n) t →
  ∃ w' tr t',
    run w = Some (w', tr, Finished) ∧ evolves a n w t tr w' t' ∧
    sched w' = sched w ∧
    Forall (λ ev, ev_tick ev = getTickCount w) tr ∧
    ∀ j tk, (j < N.to_nat n)%nat → t !! j = Some tk →
      calls_of j tr = (if due (getTickCount w) tk then 1 else 0)%nat ∧
      t' !! j = Some (if due (getTickCount w) tk
                      then called_at (getTickCount w) tk else tk).
Proof.
  intros Hb Hall.
  destruct (run_evolves a n w t Hb (all_funcs_safe _ _ Hall))
    as (w' & tr & e & t' & Hrun & Hev & Hs & Htab).
  assert (e = Finished) as -> by by eapply run_table_finished.
  exists w', tr, t'. split; [done|]. split; [done|]. split; [done|].
  split.
  { eapply Forall_impl; [by eapply run_table_events|]. simpl. tauto. }
  intros j tk Hj Hlook. unfold getTickCount.
  rewrite (run_table_calls _ _ _ _ _ _ _ Htab j).
  rewrite (run_table_lookup _ _ _ _ _ _ _ Htab j), Hlook. simpl.
  case_decide; [done|lia].
Qed.

(** At counter 0 every descriptor primed by [init] passes the test. *)
Lemma due_primed tk : is_uint32 (interval tk) → due 0 (primed tk) = true.
Proof.
  intros Hiv. unfold due, primed. simpl.
  rewrite Wrap32.init_value_elapsed by done.
  rewrite Z.leb_refl. apply orb_true_r.
Qed.

Lemma init_dangling a n stp w w1 :
  init (Some a) n stp w = Some (true, w1) → mem w !! a = None →
  n = 0%N ∧ mem w1 = mem w.
Proof.
  unfold init. intros Hi Hm. destruct (N.to_nat n) as [|k] eqn:Hn.
  - simpl in Hi. inversion Hi. split; [lia|done].
  - simpl in Hi. unfold read_task in Hi. simpl in Hi.
    rewrite Hm in Hi. done.
Qed.

(** The example scenario: interval 10, [run] at counter 0, 5 and 10 calls
    the task at 0 and at 10 only. *)
Lemma example_scenario :
  snd <$> exec [OpRun; OpTick; OpTick; OpTick; OpTick; OpTick; OpRun;
                OpTick; OpTick; OpTick; OpTick; OpTick; OpRun]
               one_periodic_bound =
  Some [mkEvent 0 7%positive 0; mkEvent 0 7%positive 10].
Proof. vm_compute. reflexivity. Qed.

(** Away from counter 0 the primed value stops helping: a descriptor
    fresh from [init] passes the test at counter [c] exactly while
    [c + interval] has not reached [2^32]. *)
Lemma due_primed_window tk c :
  0 < interval tk < 2 ^ 32 → is_uint32 c →
  due c (primed tk) = true ↔ c + interval tk < 2 ^ 32.
Proof.
  intros HK Hc. unfold is_uint32 in Hc. unfold due, primed. simpl.
  replace (interval tk =? 0) with false by (symmetry; apply Z.eqb_neq; lia).
  simpl. rewrite Wrap32.init_value. unfold wrap32.
  rewrite Zminus_mod_idemp_r.
  replace (c - - interval tk) with (c + interval tk) by lia.
  rewrite Z.leb_le. split.
  - intros Hle. destruct (Z_lt_ge_dec (c + interval tk) (2 ^ 32)) as [|Hge];
      [done|].
    replace (c + interval tk)
      with (c + interval tk - 2 ^ 32 + 1 * 2 ^ 32) in Hle by lia.
    rewrite Z.mod_add, Z.mod_small in Hle; lia.
  - intros Hlt. rewrite Z.mod_small; lia.
Qed.

(** * The specification, claim by claim *)

(** C1. A failed [init] is meant to change no field of the scheduler.
    The code stores [systick_interval_] before it validates: on a
    scheduler bound to [three_tasks] with tick step 1 and counter 40,
    [init] on a table with a null action, and [init] on a null table, both
    return [false] and leave the store, the bound table, the count and
    the counter as they were, but the tick step is now the rejected
    call's argument 5. *)
Theorem init_failure_overwrites_tick_step :
  ∃ w1 w2,
    init (Some 2%positive) 3 5 rebind_world = Some (false, w1) ∧
    init None 3 5 rebind_world = Some (false, w2) ∧
    w1 = w2 ∧
    mem w1 = mem rebind_world ∧
    task_table_ (sched w1) = task_table_ (sched rebind_world) ∧
    num_tasks_ (sched w1) = num_tasks_ (sched rebind_world) ∧
    sys_tick_ctr_ (sched w1) = sys_tick_ctr_ (sched rebind_world) ∧
    systick_interval_ (sched rebind_world) = 1 ∧
    systick_interval_ (sched w1) = 5.
Proof.
  exists (setTickInterval 5 rebind_world), (setTickInterval 5 rebind_world).
  repeat split; reflexivity.
Qed.

(** C2. After a successful [init], the first [run] calls a periodic task
    of interval [K], at snapshot 0.  At every later [run], whatever the
    client did in between, the task is called exactly when the counter is
    at least [K] past the snapshot [s] of its previous call, the
    difference being taken modulo [2^32]; so it is not called again
    before the counter has advanced by [K], and [last_called_] holds
    [s]. *)
Theorem periodic_fires_first_then_waits a n stp w w1 t i tk :
  init (Some a) n stp w = Some (true, w1) →
  mem w !! a = Some t → t !! i = Some tk → (i < N.to_nat n)%nat →
  0 < interval tk < 2 ^ 32 →
  ∃ w2 tr2 e2,
    run w1 = Some (w2, tr2, e2) ∧
    calls_of i tr2 = 1%nat ∧ last_tick i tr2 = Some 0 ∧
    ∀ ops, ∃ w3 h s w4 tr4 e4,
      exec ops w2 = Some (w3, h) ∧
      last_tick i (tr2 ++ h) = Some s ∧
      last_called_ <$> read_task (mem w3) a i = Some s ∧
      run w3 = Some (w4, tr4, e4) ∧
      calls_of i tr4 =
        if interval tk <=? wrap32 (getTickCount w3 - s) then 1%nat else 0%nat.
Proof.
  intros Hi Hm Hlook Hlt HK.
  destruct (init_true_sched _ _ _ _ _ Hi) as (_ & _ & Hs).
  destruct (init_true _ _ _ _ _ _ Hi Hm) as (t1 & Hb1 & _ & Hsh1 & Hall & Hl).
  assert (Hi1 : t1 !! i = Some (primed tk)).
  { rewrite Hl, Hlook. by case_decide. }
  assert (Hc1 : getTickCount w1 = 0) by (unfold getTickCount; by rewrite Hs).
  assert (Hnz : (interval tk =? 0) = false) by (apply Z.eqb_neq; lia).
  destruct (run_validated a n w1 t1 Hb1) as
    (w2 & tr2 & t2 & Hrun2 & Hev2 & _ & Htk2 & Hc2).
  { by eapply all_funcs_shape. }
  destruct (Hc2 i (primed tk) Hlt Hi1) as (Hcalls2 & _).
  rewrite Hc1, due_primed in Hcalls2 by (unfold is_uint32; simpl; lia).
  assert (Hlast2 : last_tick i tr2 = Some 0).
  { rewrite <- Hc1. apply last_tick_called; [done|lia]. }
  exists w2, tr2, Finished. split; [done|]. split; [done|]. split; [done|].
  intros ops.
  destruct (exec_evolves a n ops w2 t2) as (w3 & h & t3 & Hex & Hev3).
  { apply Hev2. }
  { apply all_funcs_safe. eapply all_funcs_shape; [|exact Hall].
    destruct Hev2 as (_ & -> & _). done. }
  pose proof (evolves_trans _ _ _ _ _ _ _ _ _ _ Hev2 Hev3)
    as (Hb3 & Hsh3 & _ & _ & _ & _ & Hlc).
  destruct (Hlc i (primed tk) Hi1) as (tk3 & Hi3 & Hlc3).
  simpl in Hlc3. rewrite Hnz in Hlc3.
  assert (Hs3 : ∃ s, last_tick i (tr2 ++ h) = Some s).
  { rewrite last_tick_app, Hlast2. destruct (last_tick i h); eauto. }
  destruct Hs3 as [s Hs3]. rewrite Hs3 in Hlc3. simpl in Hlc3.
  destruct (run_validated a n w3 t3 Hb3) as
    (w4 & tr4 & t4 & Hrun4 & _ & _ & _ & Hc4).
  { eapply all_funcs_shape; [|exact Hall]. congruence. }
  exists w3, h, s, w4, tr4, Finished. split; [done|]. split; [done|].
  split.
  { unfold read_task. destruct Hb3 as (_ & _ & ->). simpl.
    rewrite Hi3. simpl. by rewrite Hlc3. }
  split; [done|].
  destruct (Hc4 i tk3 Hlt Hi3) as (-> & _).
  destruct (shape_lookup _ _ _ _ Hsh3 Hi3) as (tk1 & Hi1' & _ & Hiv).
  assert (tk1 = primed tk) by congruence. subst tk1. simpl in Hiv.
  unfold due. by rewrite <- Hiv, Hnz, Hlc3.
Qed.

Lemma periodic_fires_first_then_waits_witness :
  ∃ w2 tr2 e2,
    run one_periodic_bound = Some (w2, tr2, e2) ∧ calls_of 0 tr2 = 1%nat.
Proof.
  destruct (periodic_fires_first_then_waits 1%positive 1%N 1 one_periodic
              one_periodic_bound [Task_new (Some 7%positive) 10] 0%nat
              (Task_new (Some 7%positive) 10))
    as (w2 & tr2 & e2 & Hrun & Hc & _).
  - vm_compute. reflexivity.
  - reflexivity.
  - reflexivity.
  - simpl. lia.
  - simpl. lia.
  - exists w2, tr2, e2. split; [exact Hrun|exact Hc].
Defined.

(** C3. Let a periodic task of interval [K] be called by a [run] at
    snapshot [c].  If the counter is then advanced by [e] ticks in all,
    [e] below [2^32], the modular difference between the counter and [c]
    is [e] again, whether or not the counter wrapped past [UINT32_MAX]
    on the way; the next [run] calls the task exactly when [K <= e]. *)
Theorem wraparound_fires_exactly_when_elapsed
    a n stp w w1 t i tk ops w2 h w3 tr ex steps :
  init (Some a) n stp w = Some (true, w1) →
  mem w !! a = Some t → t !! i = Some tk →
  0 < interval tk < 2 ^ 32 →
  exec ops w1 = Some (w2, h) →
  run w2 = Some (w3, tr, ex) → calls_of i tr = 1%nat →
  Forall (λ s, 0 <= s) steps → sum_ticks steps < 2 ^ 32 →
  last_called_ <$> read_task (mem w3) a i = Some (getTickCount w2) ∧
  wrap32 (getTickCount (advance steps w3) - getTickCount w2) =
    sum_ticks steps ∧
  ∃ w4 tr' ex',
    run (advance steps w3) = Some (w4, tr', ex') ∧
    calls_of i tr' = if interval tk <=? sum_ticks steps then 1%nat else 0%nat.
Proof.
  intros Hi Hm Hlook HK Hex Hrun Hcalls Hpos Hsum.
  destruct (init_true _ _ _ _ _ _ Hi Hm) as (t1 & Hb1 & _ & Hsh1 & Hall & Hl).
  assert (Hnz : (interval tk =? 0) = false) by (apply Z.eqb_neq; lia).
  destruct (exec_evolves a n ops w1 t1 Hb1) as (w2' & h' & t2 & Hex' & Hev2).
  { apply all_funcs_safe. by eapply all_funcs_shape. }
  rewrite Hex in Hex'. inversion Hex'; subst w2' h'. clear Hex'.
  destruct Hev2 as (Hb2 & Hsh2 & _).
  assert (Hall2 : all_funcs (N.to_nat n) t2).
  { eapply all_funcs_shape; [|exact Hall]. congruence. }
  destruct (run_validated a n w2 t2 Hb2 Hall2)
    as (w3' & tr0 & t3 & Hrun' & Hev3 & Hs3 & _ & Hc3).
  rewrite Hrun in Hrun'. inversion Hrun'; subst w3' tr0 ex. clear Hrun'.
  assert (Hlt : (i < N.to_nat n)%nat).
  { destruct (decide (i < N.to_nat n)%nat) as [|Hge]; [done|].
    destruct Hev3 as (_ & _ & _ & _ & Hn & _).
    rewrite Hn in Hcalls by lia. done. }
  destruct (Hall2 i Hlt) as (tk2 & f & Hi2 & Hf2).
  assert (Hiv2 : interval tk2 = interval tk).
  { destruct (shape_lookup t t2 i tk2) as (tk0 & ? & _ & ?);
      [congruence|done|]. congruence. }
  destruct (Hc3 i tk2 Hlt Hi2) as (Hdue & Hi3). rewrite Hcalls in Hdue.
  destruct (due (getTickCount w2) tk2); [|done].
  unfold called_at in Hi3. rewrite Hiv2, Hnz in Hi3.
  destruct Hev3 as (Hb3 & Hsh3 & _).
  split.
  { unfold read_task. destruct Hb3 as (_ & _ & ->). simpl. by rewrite Hi3. }
  assert (Hel : wrap32 (getTickCount (advance steps w3) - getTickCount w2)
                = sum_ticks steps).
  { rewrite <- Wrap32.sub_l, advance_counter. unfold getTickCount at 1.
    rewrite Hs3. apply Wrap32.elapsed. split; [|done].
    by apply sum_ticks_nonneg. }
  split; [done|].
  destruct (advance_frame steps w3) as (Hma & Hta & Hna).
  destruct (run_validated a n (advance steps w3) t3)
    as (w4 & tr' & t4 & Hrun4 & _ & _ & _ & Hc4).
  { destruct Hb3 as (? & ? & ?). split; [congruence|].
    split; congruence. }
  { eapply all_funcs_shape; [|exact Hall2]. done. }
  exists w4, tr', Finished. split; [done|].
  destruct (Hc4 i _ Hlt Hi3) as (-> & _).
  unfold due. simpl. by rewrite Hiv2, Hnz, Hel.
Qed.

Lemma wraparound_fires_exactly_when_elapsed_witness :
  wrap32 (getTickCount (advance [3; 7] near_max_fired) - 4294967291) = 10 ∧
  ∃ w4 tr' ex',
    run (advance [3; 7] near_max_fired) = Some (w4, tr', ex') ∧
    calls_of 0 tr' = 1%nat.
Proof.
  destruct (wraparound_fires_exactly_when_elapsed 1%positive 1%N 1
              one_periodic one_periodic_bound
              [Task_new (Some 7%positive) 10] 0%nat
              (Task_new (Some 7%positive) 10)
              [OpRun; OpStoreCounter 4294967291]
              (store_sys_tick_ctr 4294967291
                 (mkWorld {[ 1%positive := [mkTask (Some 7%positive) 10 0] ]}
                          (mkScheduler 0 1 1 (Some 1%positive))))
              [mkEvent 0 7%positive 0]
              near_max_fired [mkEvent 0 7%positive 4294967291] Finished
              [3; 7])
    as (_ & Hel & w4 & tr' & ex' & Hrun & Hc).
  - vm_compute. reflexivity.
  - reflexivity.
  - reflexivity.
  - simpl. lia.
  - vm_compute. reflexivity.
  - vm_compute. reflexivity.
  - reflexivity.
  - repeat constructor; lia.
  - simpl. lia.
  - split; [exact Hel|]. exists w4, tr', ex'. split; [exact Hrun|exact Hc].
Defined.

(** C4, as stated: [tick] on a scheduler that was never initialised is
    neither rejected nor a no-op; it returns 1 and [getTickCount] moves
    from 0 to 1. *)
Lemma tick_counts_before_init :
  unbound (fresh ∅) ∧
  getTickCount (fresh ∅) = 0 ∧
  fst (tick (fresh ∅)) = 1 ∧
  getTickCount (snd (tick (fresh ∅))) = 1.
Proof. repeat split. Qed.

(** C4, amended.  While no table is bound, [run] calls nothing and
    changes nothing; [tick] adds the tick step to the counter modulo
    [2^32] as it always does and changes nothing else; no sequence of
    [run], [tick], [setTickInterval] and counter stores binds a table; a
    failed [init] leaves the scheduler unbound, and a successful one
    binds it. *)
Theorem unbound_run_noop_tick_counts w :
  unbound w →
  run w = Some (w, [], Finished) ∧
  tick w = (wrap32 (getTickCount w + systick_interval_ (sched w)),
            store_sys_tick_ctr
              (getTickCount w + systick_interval_ (sched w)) w) ∧
  (∀ ops, ∃ w', exec ops w = Some (w', []) ∧ unbound w' ∧ mem w' = mem w) ∧
  (∀ tbl n stp w1, init tbl n stp w = Some (false, w1) →
                   unbound w1 ∧ mem w1 = mem w) ∧
  (∀ tbl n stp w1, init tbl n stp w = Some (true, w1) →
                   ¬ unbound w1 ∧ is_Some tbl ∧
                   task_table_ (sched w1) = tbl ∧
                   num_tasks_ (sched w1) = n).
Proof.
  intros (Ht & Hn). split; [by apply run_zero|]. split; [done|]. split.
  { intros ops. destruct (exec_zero ops w Hn) as (w' & He & Hm & Hn' & Ht').
    exists w'. split; [done|]. split; [|done]. split; congruence. }
  split.
  { intros tbl n stp w1 Hi.
    destruct (init_failure_frame _ _ _ _ _ Hi) as (Hm & Ht1 & Hn1 & _).
    split; [|done]. split; congruence. }
  intros tbl n stp w1 Hi.
  destruct (init_true_sched _ _ _ _ _ Hi) as (Htbl & [a ->] & Hs).
  split.
  { intros (Hu & _). congruence. }
  split; [eauto|]. by rewrite Hs.
Qed.

Lemma unbound_run_noop_tick_counts_witness :
  run (fresh ∅) = Some (fresh ∅, [], Finished) ∧
  getTickCount (snd (tick (fresh ∅))) = 1.
Proof.
  assert (Hu : unbound (fresh ∅)) by (split; reflexivity).
  destruct (unbound_run_noop_tick_counts (fresh ∅) Hu) as (Hrun & Htick & _).
  split; [exact Hrun|]. rewrite Htick. reflexivity.
Defined.

(** C5. A successful [init(table, count, tick_step)] binds that table and
    count, stores the tick step, resets the counter to 0, leaves other
    arrays and the entries from [count] on as they were, and gives each
    of the first [count] descriptors
    [last_called_ = (UINT32_MAX - interval + 1) mod 2^32], keeping action
    and interval.  A periodic descriptor then passes the elapsed-time test
    at counter 0, and the first [run] calls each periodic task once. *)
Theorem init_success_binds_and_primes a n stp w w1 :
  init (Some a) n stp w = Some (true, w1) →
  sched w1 = mkScheduler 0 stp n (Some a) ∧
  (∀ b, b ≠ a → mem w1 !! b = mem w !! b) ∧
  (∀ j, (N.to_nat n ≤ j)%nat →
        read_task (mem w1) a j = read_task (mem w) a j) ∧
  (∀ j, (j < N.to_nat n)%nat →
     ∃ tk f, read_task (mem w) a j = Some tk ∧ func tk = Some f ∧
       read_task (mem w1) a j =
         Some (mkTask (func tk) (interval tk)
                      (wrap32 (UINT32_MAX - interval tk + 1))) ∧
       (0 < interval tk < 2 ^ 32 →
        interval tk <=
          wrap32 (getTickCount w1 - wrap32 (UINT32_MAX - interval tk + 1)))) ∧
  ∃ w2 tr e,
    run w1 = Some (w2, tr, e) ∧
    ∀ j tk, (j < N.to_nat n)%nat → read_task (mem w) a j = Some tk →
            0 < interval tk < 2 ^ 32 → calls_of j tr = 1%nat.
Proof.
  intros Hi. destruct (init_true_sched _ _ _ _ _ Hi) as (_ & _ & Hs).
  split; [done|]. destruct (mem w !! a) as [t|] eqn:Hm.
  - destruct (init_true _ _ _ _ _ _ Hi Hm)
      as (t1 & Hb & Hm1 & Hsh & Hall & Hl).
    split. { intros b Hb'. by rewrite Hm1, lookup_insert_ne. }
    split.
    { intros j Hj. unfold read_task. rewrite Hm1, lookup_insert_eq, Hm.
      simpl. rewrite Hl. case_decide; [lia|done]. }
    split.
    { intros j Hj. destruct (Hall j Hj) as (tk & f & Hlook & Hf).
      exists tk, f. unfold read_task. rewrite Hm1, lookup_insert_eq, Hm.
      simpl. rewrite Hl, Hlook. split; [done|]. split; [done|].
      rewrite <- Wrap32.add_l. split; [by case_decide|].
      intros HK. unfold getTickCount. rewrite Hs. simpl.
      rewrite Wrap32.init_value_elapsed; [lia|]. unfold is_uint32. lia. }
    destruct (run_validated a n w1 t1 Hb)
      as (w2 & tr & t2 & Hrun & _ & _ & _ & Hc).
    { by eapply all_funcs_shape. }
    exists w2, tr, Finished. split; [done|].
    intros j tk Hj Hread HK. unfold read_task in Hread.
    rewrite Hm in Hread. simpl in Hread.
    destruct (Hc j (primed tk) Hj) as (-> & _).
    { rewrite Hl, Hread. by case_decide. }
    unfold getTickCount. rewrite Hs. simpl.
    rewrite due_primed; [done|]. unfold is_uint32. lia.
  - destruct (init_dangling _ _ _ _ _ Hi Hm) as (-> & Hm1).
    rewrite Hm1. split; [done|]. split; [done|].
    split; [intros j Hj; simpl in Hj; lia|].
    exists w1, [], Finished. split.
    + apply run_zero. by rewrite Hs.
    + intros j tk Hj. simpl in Hj. lia.
Qed.

Lemma init_success_binds_and_primes_witness :
  sched one_periodic_bound = mkScheduler 0 1 1 (Some 1%positive) ∧
  ∃ w2 tr e, run one_periodic_bound = Some (w2, tr, e) ∧
             calls_of 0 tr = 1%nat.
Proof.
  destruct (init_success_binds_and_primes 1%positive 1%N 1
              one_periodic one_periodic_bound)
    as (Hs & _ & _ & _ & w2 & tr & e & Hrun & Hc).
  - vm_compute. reflexivity.
  - split; [exact Hs|]. exists w2, tr, e. split; [exact Hrun|].
    apply (Hc 0%nat (Task_new (Some 7%positive) 10)).
    + simpl. lia.
    + reflexivity.
    + simpl. lia.
Defined.

(** C6. Let the bound table hold a null action at position [i], inside
    the count.  Then every client program runs to completion without a
    single call at a position [j >= i], and leaves the binding, the count
    and the static part of the table (so the null entry and everything
    after it) in place.  Each [run] takes the [break], at [i] or before,
    and leaves the entries from [i] on untouched; when [i] is the first
    null action the [break] is at [i] and each entry before [i] is called
    exactly when its own test says so. *)
Theorem null_action_truncates a n w t i tk :
  bound_to w a n t → (i < N.to_nat n)%nat →
  t !! i = Some tk → func tk = None →
  ∀ ops, ∃ w1 h t1,
    exec ops w = Some (w1, h) ∧ bound_to w1 a n t1 ∧ shape t1 = shape t ∧
    (∀ j, (i ≤ j)%nat → calls_of j h = 0%nat) ∧
    ∃ w2 tr e t2,
      run w1 = Some (w2, tr, e) ∧ bound_to w2 a n t2 ∧ shape t2 = shape t ∧
      (∃ k, e = Broke k ∧ (k ≤ i)%nat) ∧
      (∀ j, (i ≤ j)%nat → calls_of j tr = 0%nat ∧ t2 !! j = t1 !! j) ∧
      ((∀ k, (k < i)%nat → ∃ tk' f, t !! k = Some tk' ∧ func tk' = Some f) →
       e = Broke i ∧
       ∀ k tk', (k < i)%nat → t1 !! k = Some tk' →
         calls_of k tr =
           (if due (getTickCount w1) tk' then 1%nat else 0%nat) ∧
         t2 !! k = Some (if due (getTickCount w1) tk'
                         then called_at (getTickCount w1) tk' else tk')).
Proof.
  intros Hb Hlt Hi Hnull ops.
  assert (Hsafe : safe (N.to_nat n) t) by (right; eauto).
  destruct (exec_evolves a n ops w t Hb Hsafe) as (w1 & h & t1 & Hex & Hev1).
  destruct Hev1 as (Hb1 & Hsh1 & _ & _ & _ & Hz1 & _).
  exists w1, h, t1. split; [done|]. split; [done|]. split; [done|].
  split. { intros j Hj. by apply (Hz1 j i tk). }
  assert (Hi1 : ∃ tk1, t1 !! i = Some tk1 ∧ func tk1 = None).
  { symmetry in Hsh1.
    destruct (shape_lookup _ _ _ _ Hsh1 Hi) as (tk1 & ? & ? & _).
    exists tk1. split; [done|]. congruence. }
  destruct Hi1 as (tk1 & Hi1 & Hnull1).
  destruct (run_evolves a n w1 t1 Hb1) as
    (w2 & tr & e & t2 & Hrun & Hev2 & _ & Htab).
  { eapply safe_shape; [|exact Hsafe]. done. }
  destruct Hev2 as (Hb2 & Hsh2 & _ & _ & _ & Hz2 & _).
  pose proof (run_table_exit _ _ _ _ _ _ _ Htab) as (_ & Hin & _).
  pose proof (run_table_calls _ _ _ _ _ _ _ Htab) as Hcalls.
  pose proof (run_table_lookup _ _ _ _ _ _ _ Htab) as Hlook.
  assert (Hstop : (exit_pos (N.to_nat n) 0 e ≤ i)%nat).
  { destruct (decide (exit_pos (N.to_nat n) 0 e ≤ i)%nat) as [|Hgt]; [done|].
    destruct (Hin i ltac:(lia)) as (tk' & f & ? & ?). congruence. }
  exists w2, tr, e, t2. split; [done|]. split; [done|].
  split; [congruence|]. split.
  { destruct e as [|k]; simpl in Hstop; [lia|eauto]. }
  split.
  { intros j Hj. split; [by apply (Hz2 j i tk1)|].
    rewrite Hlook. case_decide; [lia|done]. }
  intros Hfirst.
  assert (He : e = Broke i).
  { eapply run_table_broke; [exact Hlt|exact Hi1|done| |exact Htab].
    intros k Hk. destruct (Hfirst k Hk) as (tk' & f & Hk' & Hf').
    symmetry in Hsh1.
    destruct (shape_lookup _ _ _ _ Hsh1 Hk') as (tk'' & ? & ? & _).
    exists tk'', f. split; [done|]. congruence. }
  split; [done|]. subst e. simpl in *.
  intros k tk' Hk Hk'. unfold getTickCount.
  rewrite Hcalls, Hlook, Hk'. simpl. case_decide; [done|lia].
Qed.

Lemma null_action_truncates_witness :
  ∃ w1 h t1,
    exec [OpRun; OpTick; OpRun] truncated_world = Some (w1, h) ∧
    bound_to w1 1%positive 3 t1 ∧ shape t1 = shape with_null ∧
    calls_of 2 h = 0%nat.
Proof.
  destruct (null_action_truncates 1%positive 3%N truncated_world with_null
              1%nat (Task_new None 5)) with (ops := [OpRun; OpTick; OpRun])
    as (w1 & h & t1 & Hex & Hb & Hsh & Hc & _).
  - repeat split.
  - simpl. lia.
  - reflexivity.
  - reflexivity.
  - exists w1, h, t1. split; [exact Hex|]. split; [exact Hb|].
    split; [exact Hsh|]. apply Hc. lia.
Defined.

(** C7. After a successful [init], a task of interval 0 is called
    exactly once by every [run], whatever the client did before and
    whatever the counter holds; its descriptor is still the one [init]
    left, and the [run] leaves it as it is. *)
Theorem continuous_task_runs_every_cycle a n stp w w1 t i tk :
  init (Some a) n stp w = Some (true, w1) →
  mem w !! a = Some t → t !! i = Some tk → (i < N.to_nat n)%nat →
  interval tk = 0 →
  ∀ ops, ∃ w2 h w3 tr e,
    exec ops w1 = Some (w2, h) ∧
    read_task (mem w2) a i = Some (primed tk) ∧
    run w2 = Some (w3, tr, e) ∧
    calls_of i tr = 1%nat ∧
    read_task (mem w3) a i = Some (primed tk).
Proof.
  intros Hi Hm Hlook Hlt Hz ops.
  destruct (init_true _ _ _ _ _ _ Hi Hm) as (t1 & Hb1 & _ & Hsh1 & Hall & Hl).
  assert (Hi1 : t1 !! i = Some (primed tk)).
  { rewrite Hl, Hlook. by case_decide. }
  destruct (exec_evolves a n ops w1 t1 Hb1) as (w2 & h & t2 & Hex & Hev2).
  { apply all_funcs_safe. by eapply all_funcs_shape. }
  destruct Hev2 as (Hb2 & Hsh2 & _ & _ & _ & _ & Hlc2).
  destruct (Hlc2 i (primed tk) Hi1) as (tk2 & Hi2 & Hlast).
  simpl in Hlast. rewrite Hz in Hlast. simpl in Hlast.
  destruct (shape_lookup _ _ _ _ Hsh2 Hi2) as (tk1 & Hi1' & Hf & Hiv).
  assert (tk1 = primed tk) by congruence. subst tk1. simpl in Hf, Hiv.
  assert (tk2 = primed tk).
  { destruct tk2 as [f2 iv2 lc2]. unfold primed, with_last_called.
    simpl in *. congruence. }
  subst tk2.
  destruct (run_validated a n w2 t2 Hb2) as
    (w3 & tr & t3 & Hrun & Hev3 & _ & _ & Hc3).
  { eapply all_funcs_shape; [|exact Hall]. congruence. }
  destruct (Hc3 i (primed tk) Hlt Hi2) as (Hcalls & Hi3).
  assert (Hdue : ∀ c, due c (primed tk) = true).
  { intros c. unfold due. simpl. by rewrite Hz. }
  rewrite Hdue in Hcalls, Hi3.
  unfold called_at in Hi3. simpl in Hi3. rewrite Hz in Hi3. simpl in Hi3.
  exists w2, h, w3, tr, Finished. split; [done|].
  split.
  { unfold read_task. destruct Hb2 as (_ & _ & ->). done. }
  split; [done|]. split; [done|].
  unfold read_task. destruct Hev3 as ((_ & _ & ->) & _). done.
Qed.

Lemma continuous_task_runs_every_cycle_witness :
  ∃ w2 h w3 tr e,
    exec [OpRun; OpStoreCounter 77] three_tasks_bound = Some (w2, h) ∧
    run w2 = Some (w3, tr, e) ∧ calls_of 0 tr = 1%nat.
Proof.
  destruct (continuous_task_runs_every_cycle 1%positive 3%N 1
              (fresh {[ 1%positive := three_tasks ]}) three_tasks_bound
              three_tasks 0%nat (Task_new (Some 7%positive) 0))
    with (ops := [OpRun; OpStoreCounter 77])
    as (w2 & h & w3 & tr & e & Hex & _ & Hrun & Hc & _).
  - vm_compute. reflexivity.
  - reflexivity.
  - reflexivity.
  - simpl. lia.
  - reflexivity.
  - exists w2, h, w3, tr, e. split; [exact Hex|]. split; [exact Hrun|exact Hc].
Defined.

(** C8. [setTickInterval] writes the tick step and nothing else: the
    store (every [last_called_]), the counter, the bound table and the
    count are unchanged; the next [tick] adds the new step; and a
    dispatch cycle calls the same tasks and leaves the same store as it
    would have without the call. *)
Theorem setTickInterval_only_sets_step s w :
  mem (setTickInterval s w) = mem w ∧
  sys_tick_ctr_ (sched (setTickInterval s w)) = sys_tick_ctr_ (sched w) ∧
  task_table_ (sched (setTickInterval s w)) = task_table_ (sched w) ∧
  num_tasks_ (sched (setTickInterval s w)) = num_tasks_ (sched w) ∧
  systick_interval_ (sched (setTickInterval s w)) = s ∧
  fst (tick (setTickInterval s w)) = wrap32 (getTickCount w + s) ∧
  run (setTickInterval s w) =
    (λ '(w', tr, e), (setTickInterval s w', tr, e)) <$> run w.
Proof.
  repeat split. unfold run. apply run_loop_setTickInterval.
Qed.

(** C9. After a successful [init] with count [n], whatever the client
    does with [run], [tick], [setTickInterval] and the counter, every
    [run] leaves its loop through the loop condition, never through the
    [break]: each of the [n] descriptors still has its action, and is
    called once if its test holds and not at all otherwise. *)
Theorem validated_table_never_breaks a n stp w w1 :
  init (Some a) n stp w = Some (true, w1) →
  ∀ ops, ∃ w2 h w3 tr,
    exec ops w1 = Some (w2, h) ∧
    run w2 = Some (w3, tr, Finished) ∧
    ∀ j, (j < N.to_nat n)%nat →
      ∃ tk f, read_task (mem w2) a j = Some tk ∧ func tk = Some f ∧
        calls_of j tr = if due (getTickCount w2) tk then 1%nat else 0%nat.
Proof.
  intros Hi ops. destruct (mem w !! a) as [t|] eqn:Hm.
  - destruct (init_true _ _ _ _ _ _ Hi Hm)
      as (t1 & Hb1 & _ & Hsh1 & Hall & _).
    destruct (exec_evolves a n ops w1 t1 Hb1) as (w2 & h & t2 & Hex & Hev2).
    { apply all_funcs_safe. by eapply all_funcs_shape. }
    destruct Hev2 as (Hb2 & Hsh2 & _).
    assert (Hall2 : all_funcs (N.to_nat n) t2).
    { eapply all_funcs_shape; [|exact Hall]. congruence. }
    destruct (run_validated a n w2 t2 Hb2 Hall2)
      as (w3 & tr & t3 & Hrun & _ & _ & _ & Hc3).
    exists w2, h, w3, tr. split; [done|]. split; [done|].
    intros j Hj. destruct (Hall2 j Hj) as (tk & f & Hlook & Hf).
    exists tk, f. unfold read_task. destruct Hb2 as (_ & _ & ->). simpl.
    split; [done|]. split; [done|]. by destruct (Hc3 j tk Hj Hlook).
  - destruct (init_dangling _ _ _ _ _ Hi Hm) as (-> & _).
    destruct (init_true_sched _ _ _ _ _ Hi) as (_ & _ & Hs).
    destruct (exec_zero ops w1) as (w2 & Hex & _ & Hn2 & _).
    { by rewrite Hs. }
    exists w2, [], w2, []. split; [done|]. split; [by apply run_zero|].
    intros j Hj. simpl in Hj. lia.
Qed.

Lemma validated_table_never_breaks_witness :
  ∃ w2 h w3 tr,
    exec [OpRun; OpTick; OpTick; OpTick] three_tasks_bound = Some (w2, h) ∧
    run w2 = Some (w3, tr, Finished).
Proof.
  destruct (validated_table_never_breaks 1%positive 3%N 1
              (fresh {[ 1%positive := three_tasks ]}) three_tasks_bound)
    with (ops := [OpRun; OpTick; OpTick; OpTick])
    as (w2 & h & w3 & tr & Hex & Hrun & _).
  - vm_compute. reflexivity.
  - exists w2, h, w3, tr. split; [exact Hex|exact Hrun].
Defined.

(** C10. [init] with a non-null table and a count of zero succeeds
    without reading the table: the validation loop accepts at once, the
    table is bound with count 0, the counter is 0 and the store is
    untouched.  From then on every client program calls no task and
    leaves the store as it is, and each [run] is the identity. *)
Theorem init_zero_count a stp w :
  (∀ m, init_check m a (N.to_nat 0) 0 = Some true) ∧
  init (Some a) 0 stp w =
    Some (true, mkWorld (mem w) (mkScheduler 0 stp 0 (Some a))) ∧
  ∀ ops, ∃ w',
    exec ops (mkWorld (mem w) (mkScheduler 0 stp 0 (Some a))) =
      Some (w', []) ∧
    mem w' = mem w ∧ num_tasks_ (sched w') = 0%N ∧
    task_table_ (sched w') = Some a ∧
    run w' = Some (w', [], Finished).
Proof.
  split; [done|]. split; [done|]. intros ops.
  destruct (exec_zero ops (mkWorld (mem w) (mkScheduler 0 stp 0 (Some a))))
    as (w' & He & Hm & Hn & Ht); [done|].
  exists w'. split; [done|]. split; [done|]. split; [done|].
  split; [done|]. by apply run_zero.
Qed.

(** * Further properties of the code *)

(** ** Auxiliary facts *)

Lemma world_eq w w' :
  sched w = sched w' → (∀ b, mem w !! b = mem w' !! b) → w = w'.
Proof.
  destruct w as [m s], w' as [m' s']. simpl. intros -> Hm.
  f_equal. by apply map_eq.
Qed.

Lemma exec_app ops1 : ∀ ops2 w,
  exec (ops1 ++ ops2) w =
  '(w1, h1) ← exec ops1 w; '(w2, h2) ← exec ops2 w1; Some (w2, h1 ++ h2).
Proof.
  induction ops1 as [|o ops1 IH]; intros ops2 w; simpl.
  - by destruct (exec ops2 w) as [[w2 h2]|].
  - destruct (step o w) as [[w1 tr1]|]; simpl; [|done].
    rewrite IH. destruct (exec ops1 w1) as [[w2 h2]|]; simpl; [|done].
    destruct (exec ops2 w2) as [[w3 h3]|]; simpl; [|done].
    by rewrite app_assoc.
Qed.

(** A defined [run] either had nothing to do or worked on the array the
    scheduler is bound to. *)
Lemma run_inv w w' tr e :
  run w = Some (w', tr, e) →
  (num_tasks_ (sched w) = 0%N ∧ w' = w ∧ tr = [] ∧ e = Finished) ∨
  ∃ a t t', bound_to w a (num_tasks_ (sched w)) t ∧
    run_table (N.to_nat (num_tasks_ (sched w))) 0
              (sys_tick_ctr_ (sched w)) t = Some (t', tr, e) ∧
    w' = set_mem (<[a := t']> (mem w)) w.
Proof.
  unfold run. intros Hrun.
  destruct (N.to_nat (num_tasks_ (sched w))) as [|k] eqn:Hn.
  - left. simpl in Hrun. inversion Hrun; subst.
    split; [by apply N2Nat.inj; rewrite Hn|done].
  - right. destruct (task_table_ (sched w)) as [a|] eqn:Ha;
      [|by simpl in Hrun; rewrite Ha in Hrun].
    destruct (mem w !! a) as [t|] eqn:Hm.
    + rewrite (run_loop_table _ _ _ _ _ Ha Hm) in Hrun.
      destruct (run_table (S k) 0 _ t) as [[[t' tr'] e']|] eqn:Hr; [|done].
      simpl in Hrun. inversion Hrun; subst. exists a, t, t'. done.
    + simpl in Hrun. rewrite Ha in Hrun. simpl in Hrun.
      unfold read_task in Hrun. rewrite Hm in Hrun. done.
Qed.


(** The validation loop terminates with a verdict on every array that is
    long enough, and the verdict is whether all visited actions are set. *)
Lemma init_check_total m a t n : ∀ i,
  m !! a = Some t → (i + n ≤ length t)%nat →
  ∃ b, init_check m a n i = Some b ∧
       (b = true ↔
        ∀ j, (i ≤ j < i + n)%nat → ∃ tk f, t !! j = Some tk ∧ func tk = Some f).
Proof.
  induction n as [|n IH]; intros i Hm Hlen; simpl.
  - exists true. split; [done|]. split; [intros; lia|done].
  - unfold read_task. rewrite Hm. simpl.
    destruct (lookup_lt_is_Some_2 t i ltac:(lia)) as [tk Hi].
    rewrite Hi. simpl. destruct (func tk) as [f|] eqn:Hf.
    + destruct (IH (S i) Hm ltac:(lia)) as (b & -> & Hb).
      exists b. split; [done|]. rewrite Hb. split.
      * intros H j Hj. destruct (decide (j = i)) as [->|]; [eauto|].
        apply H. lia.
      * intros H j Hj. apply H. lia.
    + exists false. split; [done|]. split; [done|].
      intros H. destruct (H i ltac:(lia)) as (tk' & f & ? & ?). congruence.
Qed.

Lemma calls_of_elem ev tr : ev ∈ tr → calls_of (ev_idx ev) tr ≠ 0%nat.
Proof.
  intros Hin. unfold calls_of.
  assert (Hf : ev ∈ filter (λ x, ev_idx x = ev_idx ev) tr)
    by by apply list_elem_of_filter.
  destruct (filter _ tr); [by apply not_elem_of_nil in Hf|done].
Qed.

(** ** What [run] touches *)

(** X1. Whenever [run] returns, the scheduler object is as before
    (counter, tick step, count and bound table), every array other than
    the bound one is as before, and every array, the bound one included,
    has kept its length and the action and interval of each entry: the
    only thing [run] writes is [last_called_] in the bound table. *)
Theorem run_writes_only_last_called w w' tr e :
  run w = Some (w', tr, e) →
  sched w' = sched w ∧
  (∀ b, task_table_ (sched w) ≠ Some b → mem w' !! b = mem w !! b) ∧
  (∀ b t, mem w !! b = Some t →
          ∃ t', mem w' !! b = Some t' ∧ shape t' = shape t).
Proof.
  intros Hrun.
  destruct (run_inv _ _ _ _ Hrun)
    as [(_ & -> & _)|(a & t & t' & (Ha & _ & Hm) & Htab & ->)].
  - split; [done|]. split; [done|]. eauto.
  - split; [done|]. split.
    + intros b Hb. simpl. apply lookup_insert_ne. congruence.
    + intros b tb Hb. simpl. destruct (decide (b = a)) as [->|Hne].
      * rewrite lookup_insert_eq. exists t'. split; [done|].
        assert (tb = t) by congruence. subst tb.
        by eapply run_table_shape.
      * rewrite lookup_insert_ne by done. eauto.
Qed.

Lemma run_writes_only_last_called_witness :
  sched (mkWorld {[ 1%positive := [mkTask (Some 7%positive) 10 0] ]}
                 (mkScheduler 0 1 1 (Some 1%positive))) =
  sched one_periodic_bound.
Proof.
  apply (run_writes_only_last_called one_periodic_bound _
           [mkEvent 0 7%positive 0] Finished).
  vm_compute. reflexivity.
Defined.



(** ** Initialisation and re-initialisation *)

(** [init] returns on every allocated array that is long enough, with the
    verdict of its validation loop. *)
Lemma init_returns a n stp w t :
  mem w !! a = Some t → (N.to_nat n ≤ length t)%nat →
  ∃ b w1, init (Some a) n stp w = Some (b, w1) ∧
          (b = true ↔ all_funcs (N.to_nat n) t).
Proof.
  intros Hm Hlen. unfold init. simpl.
  destruct (init_check_total (mem w) a t (N.to_nat n) 0 Hm ltac:(lia))
    as (b & -> & Hb). simpl.
  assert (Hall : b = true ↔ all_funcs (N.to_nat n) t).
  { rewrite Hb. split; intros H j Hj; apply H; lia. }
  destruct b.
  - destruct (init_prime_table a (N.to_nat n) 0 (mem w) t Hm ltac:(lia))
      as (t' & -> & _). simpl. eauto.
  - eauto.
Qed.

(** X3. On an allocated array with at least [n] entries [init] always
    returns, and it returns [true] exactly when each of the first [n]
    entries has an action. *)
Theorem init_decides_validity a n stp w t :
  mem w !! a = Some t → (N.to_nat n ≤ length t)%nat →
  ∃ b w1, init (Some a) n stp w = Some (b, w1) ∧
          (b = true ↔ all_funcs (N.to_nat n) t).
Proof. apply init_returns. Qed.

Lemma init_decides_validity_witness :
  ∃ b w1, init (Some 2%positive) 3 5 rebind_world = Some (b, w1) ∧
          (b = true ↔ all_funcs 3 with_null).
Proof.
  apply (init_decides_validity 2%positive 3%N 5 rebind_world with_null).
  - reflexivity.
  - simpl. lia.
Defined.

(** X4. A rejected [init] does not disturb dispatch: the next [run]
    makes the same calls, leaves the loop the same way and leaves the same
    store as it would have without the attempt; the resulting worlds
    differ in the tick step only. *)
Theorem failed_init_keeps_dispatch tbl n stp w w1 :
  init tbl n stp w = Some (false, w1) →
  run w1 = (λ '(w', tr, e), (setTickInterval stp w', tr, e)) <$> run w.
Proof.
  intros Hi. rewrite (init_false _ _ _ _ _ Hi).
  unfold run. apply run_loop_setTickInterval.
Qed.

Lemma failed_init_keeps_dispatch_witness :
  run (setTickInterval 5 rebind_world) =
  (λ '(w', tr, e), (setTickInterval 5 w', tr, e)) <$> run rebind_world.
Proof.
  apply (failed_init_keeps_dispatch (Some 2%positive) 3%N 5 rebind_world).
  vm_compute. reflexivity.
Defined.

(** Entries past the count keep their descriptor through any history. *)
Lemma evolves_beyond_count a n w t h w' t' j :
  evolves a n w t h w' t' → (N.to_nat n ≤ j)%nat → t' !! j = t !! j.
Proof.
  intros (_ & Hsh & _ & _ & Hn & _ & Hlc) Hj.
  destruct (t !! j) as [tk|] eqn:Hlook.
  - destruct (Hlc j tk Hlook) as (tk' & Hlook' & Hlast).
    rewrite (last_tick_no_calls j h (Hn j Hj)) in Hlast. simpl in Hlast.
    destruct (shape_lookup _ _ _ _ Hsh Hlook') as (tk0 & ? & Hf & Hiv).
    assert (tk0 = tk) by congruence. subst tk0. rewrite Hlook'. f_equal.
    destruct tk as [f iv lc], tk' as [f' iv' lc']. simpl in *.
    destruct (iv =? 0); congruence.
  - apply lookup_ge_None. apply lookup_ge_None in Hlook.
    by rewrite (shape_length _ _ Hsh).
Qed.

(** X5. [init] is a full reset.  After a successful [init] and any
    client history, calling [init] again on the same table with the same
    count succeeds and yields exactly the world the first call produced,
    up to the tick step passed to the second call: counter 0 and every
    [last_called_] primed again. *)
Theorem reinit_restores_initial_state a n stp w w1 t ops w2 h stp' :
  init (Some a) n stp w = Some (true, w1) → mem w !! a = Some t →
  exec ops w1 = Some (w2, h) →
  init (Some a) n stp' w2 = Some (true, setTickInterval stp' w1).
Proof.
  intros Hi Hm Hex.
  destruct (init_true_sched _ _ _ _ _ Hi) as (_ & _ & Hs1).
  destruct (init_true _ _ _ _ _ _ Hi Hm)
    as (t1 & Hb1 & Hm1 & Hsh1 & Hall & Hl1).
  destruct (exec_evolves a n ops w1 t1 Hb1) as (w2' & h' & t2 & Hex' & Hev).
  { apply all_funcs_safe. by eapply all_funcs_shape. }
  rewrite Hex in Hex'. inversion Hex'; subst w2' h'. clear Hex'.
  pose proof Hev as ((_ & _ & Hm2) & Hsh2 & Hother & _).
  destruct (init_returns a n stp' w2 t2 Hm2) as (b & w3 & Hi3 & Hb).
  { rewrite (shape_length _ _ Hsh2), (shape_length _ _ Hsh1).
    by apply all_funcs_length. }
  assert (b = true) as ->.
  { apply Hb. eapply all_funcs_shape; [|exact Hall]. congruence. }
  rewrite Hi3. do 2 f_equal.
  destruct (init_true_sched _ _ _ _ _ Hi3) as (_ & _ & Hs3).
  destruct (init_true _ _ _ _ _ _ Hi3 Hm2) as (t3 & Hb3 & Hm3 & _ & _ & Hl3).
  apply world_eq.
  - rewrite Hs3. simpl. by rewrite Hs1.
  - intros b. simpl. rewrite Hm3. destruct (decide (b = a)) as [->|Hne].
    + rewrite lookup_insert_eq. destruct Hb1 as (_ & _ & ->). f_equal.
      apply list_eq. intros j. rewrite Hl3, Hl1.
      case_decide.
      * destruct (t !! j) as [tk|] eqn:Hj.
        -- destruct Hev as (_ & _ & _ & _ & _ & _ & Hlc).
           destruct (Hlc j (primed tk)) as (tk2 & Hj2 & _).
           { rewrite Hl1, Hj. by case_decide. }
           rewrite Hj2. simpl. f_equal.
           destruct (shape_lookup t t2 j tk2) as (tk0 & ? & Hf & Hiv);
             [congruence|done|].
           assert (tk0 = tk) by congruence. subst tk0.
           unfold primed, with_last_called. by rewrite Hf, Hiv.
        -- assert (Hnone : t2 !! j = None).
           { apply lookup_ge_None. apply lookup_ge_None in Hj.
             rewrite (shape_length _ _ Hsh2), (shape_length _ _ Hsh1).
             done. }
           by rewrite Hnone.
      * rewrite (evolves_beyond_count _ _ _ _ _ _ _ j Hev) by lia.
        rewrite Hl1. by case_decide.
    + rewrite lookup_insert_ne by done. by apply Hother.
Qed.

Lemma reinit_restores_initial_state_witness :
  init (Some 1%positive) 1 4
       (mkWorld {[ 1%positive := [mkTask (Some 7%positive) 10 0] ]}
                (mkScheduler 3 1 1 (Some 1%positive))) =
  Some (true, setTickInterval 4 one_periodic_bound).
Proof.
  apply (reinit_restores_initial_state 1%positive 1%N 1 one_periodic
           one_periodic_bound [Task_new (Some 7%positive) 10]
           [OpRun; OpTick; OpTick; OpTick] _
           [mkEvent 0 7%positive 0] 4).
  - vm_compute. reflexivity.
  - reflexivity.
  - vm_compute. reflexivity.
Defined.

(** X6. A successful [init] confines the scheduler to the table it was
    given, whatever was bound before: through any later client history
    the binding stays, every call runs an action that this table held
    when [init] was called, and every other array, a previously bound
    table included, is left exactly as it was. *)
Theorem init_confines_scheduler_to_table a n stp w w1 t ops w2 h :
  init (Some a) n stp w = Some (true, w1) → mem w !! a = Some t →
  exec ops w1 = Some (w2, h) →
  task_table_ (sched w2) = Some a ∧ num_tasks_ (sched w2) = n ∧
  (∀ b, b ≠ a → mem w2 !! b = mem w !! b) ∧
  Forall (λ ev, (ev_idx ev < N.to_nat n)%nat ∧
                ∃ tk, t !! ev_idx ev = Some tk ∧
                      func tk = Some (ev_fn ev)) h.
Proof.
  intros Hi Hm Hex.
  destruct (init_true _ _ _ _ _ _ Hi Hm)
    as (t1 & Hb1 & Hm1 & Hsh1 & Hall & Hl1).
  destruct (exec_evolves a n ops w1 t1 Hb1) as (w2' & h' & t2 & Hex' & Hev).
  { apply all_funcs_safe. by eapply all_funcs_shape. }
  rewrite Hex in Hex'. inversion Hex'; subst w2' h'. clear Hex'.
  destruct Hev as ((Ha2 & Hn2 & _) & _ & Hother & Hfn & Hn & _).
  split; [done|]. split; [done|]. split.
  { intros b Hb. rewrite (Hother b Hb), Hm1. by apply lookup_insert_ne. }
  apply Forall_forall. intros ev Hin. rewrite Forall_forall in Hfn.
  destruct (Hfn ev Hin) as (tk1 & Hlook1 & Hf1). split.
  - destruct (decide (ev_idx ev < N.to_nat n)%nat) as [|Hge]; [done|].
    pose proof (calls_of_elem ev h Hin) as Hne.
    rewrite Hn in Hne by lia. done.
  - destruct (shape_lookup _ _ _ _ Hsh1 Hlook1) as (tk & ? & Hf & _).
    exists tk. split; [done|]. congruence.
Qed.

Lemma init_confines_scheduler_to_table_witness :
  task_table_ (sched (mkWorld
    {[ 1%positive := [mkTask (Some 7%positive) 0 0;
                      mkTask (Some 8%positive) 10 0;
                      mkTask (Some 9%positive) 3 0];
       2%positive := with_null ]}
    (mkScheduler 1 1 3 (Some 1%positive)))) = Some 1%positive.
Proof.
  apply (init_confines_scheduler_to_table 1%positive 3%N 1 rebind_world
           (mkWorld {[ 1%positive :=
                       [mkTask (Some 7%positive) 0 0;
                        mkTask (Some 8%positive) 10 4294967286;
                        mkTask (Some 9%positive) 3 4294967293];
                       2%positive := with_null ]}
                    (mkScheduler 0 1 3 (Some 1%positive)))
           three_tasks [OpRun; OpTick] _
           [mkEvent 0 7%positive 0; mkEvent 1 8%positive 0;
            mkEvent 2 9%positive 0]).
  - vm_compute. reflexivity.
  - reflexivity.
  - vm_compute. reflexivity.
Defined.

(** ** Back-to-back cycles and long waits *)

(** A descriptor that has just been through [run] at counter [c] passes
    the test again at [c] only if it is continuous, and is then left
    unchanged. *)
Lemma due_after_run c tk :
  0 <= interval tk →
  let tk' := if due c tk then called_at c tk else tk in
  due c tk' = (interval tk =? 0) ∧
  (if due c tk' then called_at c tk' else tk') = tk'.
Proof.
  intros Hiv. unfold due, called_at.
  destruct (interval tk =? 0) eqn:Hz; simpl; [by rewrite Hz|].
  apply Z.eqb_neq in Hz.
  destruct (interval tk <=? wrap32 (c - last_called_ tk)) eqn:Hd; simpl.
  - replace (c - c) with 0 by lia.
    replace (interval tk =? 0) with false by (symmetry; apply Z.eqb_neq; lia).
    replace (interval tk <=? wrap32 0) with false; [done|].
    symmetry. apply Z.leb_gt. unfold wrap32. rewrite Z.mod_0_l; lia.
  - replace (interval tk =? 0) with false by (symmetry; apply Z.eqb_neq; lia).
    by rewrite Hd.
Qed.

(** X7. Two cycles with no tick in between: after a successful [init]
    and any client history, a [run] that directly follows a [run] calls
    the continuous tasks once each, calls no periodic task, and leaves
    the whole world as it found it. *)
Theorem second_run_calls_only_continuous a n stp w w1 t ops w2 h :
  init (Some a) n stp w = Some (true, w1) → mem w !! a = Some t →
  Forall (λ tk, 0 <= interval tk) t →
  exec ops w1 = Some (w2, h) →
  ∃ w3 tr3 tr4,
    run w2 = Some (w3, tr3, Finished) ∧
    run w3 = Some (w3, tr4, Finished) ∧
    ∀ j tk, (j < N.to_nat n)%nat → t !! j = Some tk →
            calls_of j tr4 = if interval tk =? 0 then 1%nat else 0%nat.
Proof.
  intros Hi Hm Hpos Hex.
  destruct (init_true _ _ _ _ _ _ Hi Hm)
    as (t1 & Hb1 & _ & Hsh1 & Hall & _).
  destruct (exec_evolves a n ops w1 t1 Hb1) as (w2' & h' & t2 & Hex' & Hev2).
  { apply all_funcs_safe. by eapply all_funcs_shape. }
  rewrite Hex in Hex'. inversion Hex'; subst w2' h'. clear Hex'.
  destruct Hev2 as (Hb2 & Hsh2 & _).
  assert (Hsh : shape t2 = shape t) by congruence.
  assert (Hall2 : all_funcs (N.to_nat n) t2) by by eapply all_funcs_shape.
  destruct (run_validated a n w2 t2 Hb2 Hall2)
    as (w3 & tr3 & t3 & Hrun3 & Hev3 & Hs3 & _ & Hc3).
  pose proof Hev3 as (Hb3 & Hsh3 & _).
  assert (Hall3 : all_funcs (N.to_nat n) t3) by by eapply all_funcs_shape.
  destruct (run_validated a n w3 t3 Hb3 Hall3)
    as (w4 & tr4 & t4 & Hrun4 & Hev4 & Hs4 & _ & Hc4).
  assert (Hctr : getTickCount w3 = getTickCount w2)
    by (unfold getTickCount; by rewrite Hs3).
  assert (Hstep : ∀ j tk, (j < N.to_nat n)%nat → t !! j = Some tk →
            ∃ tk3, t3 !! j = Some tk3 ∧
              due (getTickCount w2) tk3 = (interval tk =? 0) ∧
              (if due (getTickCount w2) tk3
               then called_at (getTickCount w2) tk3 else tk3) = tk3).
  { intros j tk Hj Hlook. destruct (Hall2 j Hj) as (tk2 & f & Hlook2 & _).
    destruct (shape_lookup _ _ _ _ Hsh Hlook2) as (tk0 & ? & _ & Hiv).
    assert (tk0 = tk) by congruence. subst tk0.
    destruct (Hc3 j tk2 Hj Hlook2) as (_ & Hlook3).
    eexists. split; [exact Hlook3|]. rewrite Hiv.
    apply due_after_run. rewrite <- Hiv.
    rewrite Forall_forall in Hpos. apply Hpos.
    apply list_elem_of_lookup. eauto. }
  assert (Heq : w4 = w3).
  { apply world_eq; [done|]. intros b.
    pose proof Hev4 as ((_ & _ & Hm4) & _ & Hother & _).
    destruct (decide (b = a)) as [->|Hne]; [|by apply Hother].
    destruct Hb3 as (_ & _ & Hm3). rewrite Hm4, Hm3. f_equal.
    apply list_eq. intros j.
    destruct (decide (j < N.to_nat n)%nat) as [Hj|Hj].
    - destruct (Hall j Hj) as (tk & f & Hlook & _).
      destruct (Hstep j tk Hj Hlook) as (tk3 & Hlook3 & _ & Hfix).
      destruct (Hc4 j tk3 Hj Hlook3) as (_ & ->).
      by rewrite Hctr, Hfix.
    - apply (evolves_beyond_count _ _ _ _ _ _ _ j Hev4). lia. }
  subst w4. exists w3, tr3, tr4. split; [done|]. split; [done|].
  intros j tk Hj Hlook.
  destruct (Hstep j tk Hj Hlook) as (tk3 & Hlook3 & Hdue & _).
  destruct (Hc4 j tk3 Hj Hlook3) as (-> & _). by rewrite Hctr, Hdue.
Qed.

Lemma second_run_calls_only_continuous_witness :
  ∃ w3 tr3 tr4,
    run (snd (tick three_tasks_bound)) = Some (w3, tr3, Finished) ∧
    run w3 = Some (w3, tr4, Finished).
Proof.
  destruct (second_run_calls_only_continuous 1%positive 3%N 1
              (fresh {[ 1%positive := three_tasks ]}) three_tasks_bound
              three_tasks [OpTick] (snd (tick three_tasks_bound)) [])
    as (w3 & tr3 & tr4 & H3 & H4 & _).
  - vm_compute. reflexivity.
  - reflexivity.
  - repeat constructor; simpl; lia.
  - reflexivity.
  - exists w3, tr3, tr4. split; [exact H3|exact H4].
Defined.

(** X8. [k + 1] calls of [tick()] add [k + 1] times the tick step to the
    counter, reduced modulo [2^32] (overflow wraps, it is not an error),
    and change nothing else: store, tick step, count and bound table are
    as before. *)
Theorem ticks_closed_form k w :
  getTickCount (ticks (S k) w) =
    wrap32 (getTickCount w + Z.of_nat (S k) * systick_interval_ (sched w)) ∧
  mem (ticks (S k) w) = mem w ∧
  systick_interval_ (sched (ticks (S k) w)) = systick_interval_ (sched w) ∧
  num_tasks_ (sched (ticks (S k) w)) = num_tasks_ (sched w) ∧
  task_table_ (sched (ticks (S k) w)) = task_table_ (sched w).
Proof.
  induction k as [|k (Hc & Hm & Hs & Hn & Ht)].
  - simpl. unfold getTickCount. simpl. repeat split. f_equal. lia.
  - change (ticks (S (S k)) w) with (snd (tick (ticks (S k) w))).
    unfold getTickCount in *. unfold tick, set_sched.
    cbn [snd sched mem sys_tick_ctr_ systick_interval_ num_tasks_
         task_table_].
    rewrite Hc, Hs. repeat split; try done.
    rewrite Wrap32.add_l. f_equal. lia.
Qed.

(** X9. The scheduler sees elapsed time modulo [2^32] only.  If a
    periodic task of interval [K] was called by a [run] and the counter
    is then advanced by [e] ticks in all before the next [run], that
    [run] calls the task exactly when [K <= e mod 2^32]; so a task left
    waiting for [2^32 + r] ticks with [r < K] is skipped although more
    than [K] ticks have passed. *)
Theorem long_wait_seen_modulo
    a n stp w w1 t i tk ops w2 h w3 tr ex steps :
  init (Some a) n stp w = Some (true, w1) →
  mem w !! a = Some t → t !! i = Some tk →
  0 < interval tk < 2 ^ 32 →
  exec ops w1 = Some (w2, h) →
  run w2 = Some (w3, tr, ex) → calls_of i tr = 1%nat →
  ∃ w4 tr' ex',
    run (advance steps w3) = Some (w4, tr', ex') ∧
    calls_of i tr' =
      if interval tk <=? wrap32 (sum_ticks steps) then 1%nat else 0%nat.
Proof.
  intros Hi Hm Hlook HK Hex Hrun Hcalls.
  destruct (init_true _ _ _ _ _ _ Hi Hm) as (t1 & Hb1 & _ & Hsh1 & Hall & Hl).
  assert (Hnz : (interval tk =? 0) = false) by (apply Z.eqb_neq; lia).
  destruct (exec_evolves a n ops w1 t1 Hb1) as (w2' & h' & t2 & Hex' & Hev2).
  { apply all_funcs_safe. by eapply all_funcs_shape. }
  rewrite Hex in Hex'. inversion Hex'; subst w2' h'. clear Hex'.
  destruct Hev2 as (Hb2 & Hsh2 & _).
  assert (Hall2 : all_funcs (N.to_nat n) t2).
  { eapply all_funcs_shape; [|exact Hall]. congruence. }
  destruct (run_validated a n w2 t2 Hb2 Hall2)
    as (w3' & tr0 & t3 & Hrun' & Hev3 & Hs3 & _ & Hc3).
  rewrite Hrun in Hrun'. inversion Hrun'; subst w3' tr0 ex. clear Hrun'.
  assert (Hlt : (i < N.to_nat n)%nat).
  { destruct (decide (i < N.to_nat n)%nat) as [|Hge]; [done|].
    destruct Hev3 as (_ & _ & _ & _ & Hn & _).
    rewrite Hn in Hcalls by lia. done. }
  destruct (Hall2 i Hlt) as (tk2 & f & Hi2 & Hf2).
  assert (Hiv2 : interval tk2 = interval tk).
  { destruct (shape_lookup t t2 i tk2) as (tk0 & ? & _ & ?);
      [congruence|done|]. congruence. }
  destruct (Hc3 i tk2 Hlt Hi2) as (Hdue & Hi3). rewrite Hcalls in Hdue.
  destruct (due (getTickCount w2) tk2); [|done].
  unfold called_at in Hi3. rewrite Hiv2, Hnz in Hi3.
  destruct Hev3 as (Hb3 & Hsh3 & _).
  assert (Hel : wrap32 (getTickCount (advance steps w3) - getTickCount w2)
                = wrap32 (sum_ticks steps)).
  { rewrite <- Wrap32.sub_l, advance_counter. unfold getTickCount at 1.
    rewrite Hs3, Wrap32.sub_l. f_equal. unfold getTickCount. lia. }
  destruct (advance_frame steps w3) as (Hma & Hta & Hna).
  destruct (run_validated a n (advance steps w3) t3)
    as (w4 & tr' & t4 & Hrun4 & _ & _ & _ & Hc4).
  { destruct Hb3 as (? & ? & ?). split; [congruence|].
    split; congruence. }
  { eapply all_funcs_shape; [|exact Hall2]. done. }
  exists w4, tr', Finished. split; [done|].
  destruct (Hc4 i _ Hlt Hi3) as (-> & _).
  unfold due. simpl. by rewrite Hiv2, Hnz, Hel.
Qed.

Lemma long_wait_seen_modulo_witness :
  ∃ w4 tr' ex',
    run (advance [4294967295; 4] near_max_fired) = Some (w4, tr', ex') ∧
    calls_of 0 tr' = 0%nat.
Proof.
  destruct (long_wait_seen_modulo 1%positive 1%N 1
              one_periodic one_periodic_bound
              [Task_new (Some 7%positive) 10] 0%nat
              (Task_new (Some 7%positive) 10)
              [OpRun; OpStoreCounter 4294967291]
              (store_sys_tick_ctr 4294967291
                 (mkWorld {[ 1%positive := [mkTask (Some 7%positive) 10 0] ]}
                          (mkScheduler 0 1 1 (Some 1%positive))))
              [mkEvent 0 7%positive 0]
              near_max_fired [mkEvent 0 7%positive 4294967291] Finished
              [4294967295; 4])
    as (w4 & tr' & ex' & Hrun & Hc).
  - vm_compute. reflexivity.
  - reflexivity.
  - reflexivity.
  - simpl. lia.
  - vm_compute. reflexivity.
  - vm_compute. reflexivity.
  - reflexivity.
  - exists w4, tr', ex'. split; [exact Hrun|exact Hc].
Defined.

(** ** The main loop *)

(** From one counter value to the next: either the next value is the
    next multiple of [K], or the largest multiple below stays the same. *)
Lemma multiple_step K m :
  0 < K → 0 <= m →
  (K <= m + 1 - K * (m / K) →
   (m + 1) / K = m / K + 1 ∧ K * ((m + 1) / K) = m + 1) ∧
  (m + 1 - K * (m / K) < K → (m + 1) / K = m / K).
Proof.
  intros HK Hm.
  pose proof (Z.div_mod m K ltac:(lia)) as Hdm.
  pose proof (Z.mod_pos_bound m K HK) as Hr.
  split.
  - intros Hle.
    assert (Hq : (m + 1) / K = m / K + 1).
    { symmetry. apply (Z.div_unique (m + 1) K (m / K + 1) 0); lia. }
    rewrite Hq. split; [done|]. lia.
  - intros Hlt. symmetry.
    apply (Z.div_unique (m + 1) K (m / K) (m mod K + 1)); lia.
Qed.

(** One round of the main loop on a validated table. *)
Lemma round_evolves a n w0 t0 h w t :
  evolves a n w0 t0 h w t → all_funcs (N.to_nat n) t0 →
  ∃ w' tr t',
    exec [OpRun; OpTick] w = Some (w', tr) ∧
    evolves a n w0 t0 (h ++ tr) w' t' ∧
    sys_tick_ctr_ (sched w') =
      wrap32 (sys_tick_ctr_ (sched w) + systick_interval_ (sched w)) ∧
    systick_interval_ (sched w') = systick_interval_ (sched w) ∧
    Forall (λ ev, ev_tick ev = getTickCount w) tr ∧
    ∀ j tk, (j < N.to_nat n)%nat → t !! j = Some tk →
            calls_of j tr = if due (getTickCount w) tk then 1%nat else 0%nat.
Proof.
  intros Hev Hall. pose proof Hev as (Hb & Hsh & _).
  destruct (run_validated a n w t Hb) as (w3 & tr & t3 & Hrun & Hev3 & Hs3 & Htk & Hc).
  { by eapply all_funcs_shape. }
  exists (snd (tick w3)), tr, t3. simpl. rewrite Hrun. simpl.
  rewrite app_nil_r. split; [done|]. split.
  - eapply evolves_trans; [exact Hev|].
    rewrite <- (app_nil_r tr). eapply evolves_trans; [exact Hev3|].
    apply evolves_sched; [apply Hev3|done..].
  - rewrite Hs3. split; [done|]. split; [done|]. split; [done|].
    intros j tk Hj Hlook. by destruct (Hc j tk Hj Hlook).
Qed.

(** X10. The period.  After the two-argument [init] (tick step 1), let
    the main loop do [m + 1] rounds of [run()] then [tick()], with
    [m < 2^32].  A periodic task of interval [K] has then been called
    [m / K + 1] times, the latest call at counter [K * (m / K)]: it runs
    at counters [0, K, 2K, ...] and at no other. *)
Theorem driver_loop_period a n w w1 t i tk m :
  init_default (Some a) n w = Some (true, w1) →
  mem w !! a = Some t → t !! i = Some tk → (i < N.to_nat n)%nat →
  0 < interval tk < 2 ^ 32 → Z.of_nat m < 2 ^ 32 →
  ∃ w' h,
    exec (driver (S m)) w1 = Some (w', h) ∧
    Z.of_nat (calls_of i h) = Z.of_nat m / interval tk + 1 ∧
    last_tick i h = Some (interval tk * (Z.of_nat m / interval tk)).
Proof.
  intros Hi Hm Hlook Hlt HK Hmax. unfold init_default in Hi.
  destruct (init_true_sched _ _ _ _ _ Hi) as (_ & _ & Hs1).
  destruct (init_true _ _ _ _ _ _ Hi Hm) as (t1 & Hb1 & _ & Hsh1 & Hall & Hl).
  assert (Hall1 : all_funcs (N.to_nat n) t1) by by eapply all_funcs_shape.
  assert (Hi1 : t1 !! i = Some (primed tk)).
  { rewrite Hl, Hlook. by case_decide. }
  assert (Hnz : (interval tk =? 0) = false) by (apply Z.eqb_neq; lia).
  assert (Hinv : ∃ w' h t',
    exec (driver (S m)) w1 = Some (w', h) ∧ evolves a n w1 t1 h w' t' ∧
    sys_tick_ctr_ (sched w') = wrap32 (Z.of_nat (S m)) ∧
    systick_interval_ (sched w') = 1 ∧
    Z.of_nat (calls_of i h) = Z.of_nat m / interval tk + 1 ∧
    last_tick i h = Some (interval tk * (Z.of_nat m / interval tk))).
  { induction m as [|m IH].
    - destruct (round_evolves a n w1 t1 [] w1 t1)
        as (w' & tr & t' & Hex & Hev & Hctr & Hstep & Htk & Hc);
        [by apply evolves_sched|done|].
      exists w', tr, t'. simpl in *. split; [done|]. split; [done|].
      rewrite Hctr, Hstep, Hs1. simpl. split; [done|]. split; [done|].
      specialize (Hc i (primed tk) Hlt Hi1).
      unfold getTickCount in Hc, Htk. rewrite Hs1 in Hc, Htk. simpl in Hc, Htk.
      rewrite due_primed in Hc by (unfold is_uint32; simpl; lia).
      rewrite Hc. split; [by rewrite Z.div_0_l by lia|].
      rewrite (last_tick_called i 0 tr Htk) by lia.
      by rewrite Z.div_0_l, Z.mul_0_r by lia.
    - destruct IH as (w' & h & t' & Hex & Hev & Hctr & Hstep & Hcalls & Hlast);
        [lia|].
      destruct (round_evolves a n w1 t1 h w' t' Hev Hall1)
        as (w'' & tr & t'' & Hex2 & Hev2 & Hctr2 & Hstep2 & Htk & Hc).
      exists w'', (h ++ tr), t''.
      change (driver (S (S m))) with (driver (S m) ++ [OpRun; OpTick]).
      rewrite exec_app, Hex. simpl in Hex2 |- *. rewrite Hex2. simpl.
      split; [done|]. split; [done|].
      rewrite Hctr2, Hstep2, Hctr, Hstep, Wrap32.add_l.
      split; [f_equal; lia|]. split; [done|].
      pose proof Hev as (_ & Hsh & _ & _ & _ & _ & Hlc).
      destruct (Hlc i (primed tk) Hi1) as (tk' & Hi' & Hlc').
      simpl in Hlc'. rewrite Hnz, Hlast in Hlc'. simpl in Hlc'.
      destruct (shape_lookup _ _ _ _ Hsh Hi') as (tk0 & ? & _ & Hiv).
      assert (tk0 = primed tk) by congruence. subst tk0. simpl in Hiv.
      specialize (Hc i tk' Hlt Hi').
      assert (Hc' : getTickCount w' = Z.of_nat (S m)).
      { unfold getTickCount. rewrite Hctr. apply Wrap32.small.
        unfold is_uint32. lia. }
      rewrite Hc' in Hc, Htk.
      pose proof (Z.mul_div_le (Z.of_nat m) (interval tk) ltac:(lia)) as Hle.
      pose proof (Z.div_pos (Z.of_nat m) (interval tk) ltac:(lia) ltac:(lia))
        as Hq.
      destruct (multiple_step (interval tk) (Z.of_nat m)) as (Hhit & Hmiss);
        [lia|lia|].
      unfold due in Hc. rewrite <- Hiv, Hnz, Hlc' in Hc. simpl in Hc.
      rewrite Wrap32.small in Hc by (unfold is_uint32; nia).
      rewrite calls_of_app, last_tick_app, Nat2Z.inj_add, Hcalls, Hc.
      replace (Z.of_nat (S m)) with (Z.of_nat m + 1) in * by lia.
      destruct (interval tk <=? _) eqn:Hd.
      + apply Z.leb_le in Hd. destruct (Hhit Hd) as (Hq1 & Hm1).
        rewrite (last_tick_called i _ tr Htk) by lia.
        rewrite Hq1. split; [lia|]. f_equal. rewrite <- Hq1. lia.
      + apply Z.leb_gt in Hd. rewrite (Hmiss Hd).
        rewrite last_tick_no_calls by lia. rewrite Hlast. split; [lia|done]. }
  destruct Hinv as (w' & h & _ & Hex & _ & _ & _ & Hcalls & Hlast).
  eauto.
Qed.

Lemma driver_loop_period_witness :
  ∃ w' h,
    exec (driver 26) one_periodic_bound = Some (w', h) ∧
    Z.of_nat (calls_of 0 h) = 25 / 10 + 1 ∧
    last_tick 0 h = Some (10 * (25 / 10)).
Proof.
  apply (driver_loop_period 1%positive 1%N one_periodic one_periodic_bound
           [Task_new (Some 7%positive) 10] 0%nat
           (Task_new (Some 7%positive) 10) 25%nat).
  - vm_compute. reflexivity.
  - reflexivity.
  - reflexivity.
  - simpl. lia.
  - simpl. lia.
  - simpl. lia.
Defined.

(** ** A first cycle that comes late *)

Lemma advance_uint32 steps : ∀ w,
  is_uint32 (getTickCount w) → is_uint32 (getTickCount (advance steps w)).
Proof.
  induction steps as [|s steps IH]; intros w Hw; [done|].
  rewrite advance_cons. apply IH. unfold getTickCount. simpl.
  apply Wrap32.range.
Qed.

(** X11. Ticks between [init] and the first [run].  If the counter has
    been advanced by [e] ticks in all when [run] is first called, that
    [run] calls a periodic task of interval [K] exactly when
    [e mod 2^32 + K < 2^32]: the value [init] stores in [last_called_]
    makes the task due at counter 0 and for the [2^32 - K] counter values
    from 0 on, not for the last [K] values before the counter wraps. *)
Theorem first_run_window a n stp w w1 t i tk steps :
  init (Some a) n stp w = Some (true, w1) →
  mem w !! a = Some t → t !! i = Some tk → (i < N.to_nat n)%nat →
  0 < interval tk < 2 ^ 32 →
  ∃ w2 tr e,
    run (advance steps w1) = Some (w2, tr, e) ∧
    calls_of i tr =
      if wrap32 (sum_ticks steps) + interval tk <? 2 ^ 32
      then 1%nat else 0%nat.
Proof.
  intros Hi Hm Hlook Hlt HK.
  destruct (init_true_sched _ _ _ _ _ Hi) as (_ & _ & Hs1).
  destruct (init_true _ _ _ _ _ _ Hi Hm) as (t1 & Hb1 & _ & Hsh1 & Hall & Hl).
  assert (Hi1 : t1 !! i = Some (primed tk)).
  { rewrite Hl, Hlook. by case_decide. }
  destruct (advance_frame steps w1) as (Hma & Hta & Hna).
  destruct (run_validated a n (advance steps w1) t1)
    as (w2 & tr & t2 & Hrun & _ & _ & _ & Hc).
  { destruct Hb1 as (? & ? & ?). split; [congruence|]. split; congruence. }
  { by eapply all_funcs_shape. }
  exists w2, tr, Finished. split; [done|].
  destruct (Hc i (primed tk) Hlt Hi1) as (-> & _).
  assert (Hc0 : getTickCount w1 = 0) by (unfold getTickCount; by rewrite Hs1).
  assert (Hctr : getTickCount (advance steps w1) = wrap32 (sum_ticks steps)).
  { rewrite <- (Wrap32.small (getTickCount (advance steps w1))).
    - by rewrite advance_counter, Hc0.
    - apply advance_uint32. rewrite Hc0. unfold is_uint32. lia. }
  rewrite Hctr.
  pose proof (due_primed_window tk (wrap32 (sum_ticks steps)) HK
                (Wrap32.range _)) as Hwin.
  destruct (due _ (primed tk)); destruct (_ <? _) eqn:Hlt'; try done.
  - apply Z.ltb_ge in Hlt'. destruct Hwin as [Hwin _].
    specialize (Hwin eq_refl). lia.
  - apply Z.ltb_lt in Hlt'. destruct Hwin as [_ Hwin].
    by specialize (Hwin Hlt').
Qed.

Lemma first_run_window_witness :
  ∃ w2 tr e,
    run (advance [4294967290] one_periodic_bound) = Some (w2, tr, e) ∧
    calls_of 0 tr = 0%nat.
Proof.
  apply (first_run_window 1%positive 1%N 1 one_periodic one_periodic_bound
           [Task_new (Some 7%positive) 10] 0%nat
           (Task_new (Some 7%positive) 10) [4294967290]).
  - vm_compute. reflexivity.
  - reflexivity.
  - reflexivity.
  - simpl. lia.
  - simpl. lia.
Defined.
